(** * A verified model of [lexer.py]: the scanner for identifiers and numbers

    The development embeds the class [AnalizadorLexico] of [src/lexer.py]
    as state-passing functions over a record holding the instance fields,
    and proves the properties the specification states about it.

    Python strings are sequences of Unicode code points, and the scanner
    classifies them with [str.isspace], [str.isdigit], [str.isalpha] and
    [str.isalnum], which consult the Unicode character database of the
    interpreter.  That database, together with the conversions [int] and
    [float], is the host of the program: it is taken as a parameter (the
    class [Host]) constrained by the facts the Python documentation
    guarantees, and instantiated by a concrete table ([latin1]) for
    evaluating the scanner on concrete texts. *)

From Stdlib Require Import ZArith NArith String Ascii.
From stdpp Require Import base tactics option list numbers relations sorting.

Local Open Scope nat_scope.

(** ** Characters and texts *)

(** A character is a Unicode code point; a text is a Python [str]. *)
Abbreviation char := N (only parsing).
Abbreviation str := (list N) (only parsing).

Definition salto_de_linea : char := 10%N.   (* "\n" *)
Definition punto : char := 46%N.            (* "."  *)
Definition guion_bajo : char := 95%N.       (* "_"  *)

(** Texts of the ASCII range, written as Rocq string literals. *)
Definition py (s : string) : str := N_of_ascii <$> list_ascii_of_string s.

(** The classes of the ASCII range, as the Unicode database has them. *)
Definition entre (lo hi c : N) : bool := ((lo <=? c) && (c <=? hi))%N.

Definition ascii_isspace (c : char) : bool :=
  entre 9 13 c || entre 28 31 c || (c =? 32)%N.
Definition ascii_isdigit (c : char) : bool := entre 48 57 c.
Definition ascii_isalpha (c : char) : bool := entre 65 90 c || entre 97 122 c.
Definition ascii_decimal (c : char) : option nat :=
  if ascii_isdigit c then Some (N.to_nat (c - 48)) else None.

Definition es_ascii (c : char) : bool := (c <? 128)%N.

(** ** The host: Unicode tables and numeric conversions *)

(** [decimal c] is [unicodedata.decimal(c)] (defined on category Nd only);
    [isdigit] also holds of digits that are not decimal, such as the
    superscript two.  [strtod] is the correctly rounded conversion of an
    ASCII decimal literal to a [float]; [int_max_str_digits] is
    [sys.get_int_max_str_digits()], with [0] meaning no limit; a limit
    that is set is at least [sys.int_info.str_digits_check_threshold]. *)
Class Host := {
  isspace : char → bool;
  isdigit : char → bool;
  isalpha : char → bool;
  isnumeric : char → bool;
  decimal : char → option nat;
  flotante : Type;
  strtod : str → flotante;
  int_max_str_digits : nat;
  host_ascii_isspace c : es_ascii c = true → isspace c = ascii_isspace c;
  host_ascii_isdigit c : es_ascii c = true → isdigit c = ascii_isdigit c;
  host_ascii_isalpha c : es_ascii c = true → isalpha c = ascii_isalpha c;
  host_ascii_isnumeric c : es_ascii c = true → isnumeric c = ascii_isdigit c;
  host_ascii_decimal c : es_ascii c = true → decimal c = ascii_decimal c;
  host_decimal_isdigit c d : decimal c = Some d → isdigit c = true ∧ d < 10;
  host_isspace_isdigit c : isspace c = true → isdigit c = false;
  host_int_limit : int_max_str_digits = 0 ∨ 640 ≤ int_max_str_digits;
}.

(** ** Exceptions and outcomes *)

(** The two exceptions a scan can raise: the one built by [error], and
    the [ValueError] of [int] and [float]. *)
Inductive Excepcion :=
  | CaracterNoValido (caracter : char) (lin col : nat)
  | ValueError (literal : str).

(** A method call returns, raises, or (in the model only) exhausts the
    fuel that bounds its loops. *)
Inductive Outcome (A : Type) :=
  | Ret (a : A)
  | Raise (e : Excepcion)
  | OutOfFuel.
Arguments Ret {A} a.
Arguments Raise {A} e.
Arguments OutOfFuel {A}.

Section Lexer.
Context `{Host}.

(** [str.isalnum]: "c.isalpha(), c.isdecimal(), c.isdigit(), or
    c.isnumeric()". *)
Definition isalnum (c : char) : bool :=
  isalpha c || bool_decide (is_Some (decimal c)) || isdigit c || isnumeric c.

(** The value of a decimal digit string, most significant digit first,
    as [int] accumulates it. *)
Definition valor_decimal (ds : list nat) : Z :=
  fold_left (λ acc d, 10 * acc + Z.of_nat d)%Z ds 0%Z.

(** [int(s)] on the strings [leer_numero] builds: every character must be
    a decimal digit and the string non-empty, and the conversion refuses
    strings longer than the host's limit.  [None] is [ValueError]. *)
Definition int_ (s : str) : option Z :=
  ds ← mapM decimal s;
  if bool_decide (s = [])
  then None
  else if bool_decide (0 < int_max_str_digits ∧ int_max_str_digits < length s)
  then None
  else Some (valor_decimal ds).

(** [float(s)] on the strings [leer_numero] builds: decimal digits of any
    script are first mapped to ASCII (the dot stays), then the literal is
    converted.  [None] is [ValueError]. *)
Definition a_ascii (c : char) : option char :=
  if bool_decide (c = punto) then Some punto
  else d ← decimal c; Some (48 + N.of_nat d)%N.

Definition float_ (s : str) : option flotante :=
  strtod <$> mapM a_ascii s.

(** ** Tokens *)

Inductive Tipo := REAL | ENTERO | ID.

Inductive Valor :=
  | VFloat (x : flotante)
  | VInt (z : Z)
  | VStr (s : str).

Record Token := mkToken {
  tipo : Tipo;
  valor : Valor;
  tok_linea : nat;
  tok_columna : nat;
}.

(** ** The scanner instance *)

Record AnalizadorLexico := mkLexer {
  texto : str;
  pos : nat;
  linea : nat;
  columna : nat;
  tokens : list Token;
}.

(** [AnalizadorLexico.__init__] *)
Definition init (t : str) : AnalizadorLexico :=
  {| texto := t; pos := 0; linea := 1; columna := 1; tokens := [] |}.

Definition M (A : Type) : Type := AnalizadorLexico → Outcome A * AnalizadorLexico.

Definition ret {A} (a : A) : M A := λ s, (Ret a, s).
Definition bind {A B} (m : M A) (k : A → M B) : M B := λ s,
  match m s with
  | (Ret a, s') => k a s'
  | (Raise e, s') => (Raise e, s')
  | (OutOfFuel, s') => (OutOfFuel, s')
  end.
Definition raise {A} (e : Excepcion) : M A := λ s, (Raise e, s).
Definition gets {A} (f : AnalizadorLexico → A) : M A := λ s, (Ret (f s), s).
Definition modify (f : AnalizadorLexico → AnalizadorLexico) : M unit :=
  λ s, (Ret tt, f s).
Definition lift_value {A} (literal : str) (o : option A) : M A :=
  match o with Some a => ret a | None => raise (ValueError literal) end.

Notation "x ←← m ; k" := (bind m (λ x, k))
  (at level 20, m at level 100, k at level 200, only parsing).
Notation "m ;;; k" := (bind m (λ _, k))
  (at level 100, k at level 200, right associativity, only parsing).

(** [error] *)
Definition error {A} (caracter : char) : M A := λ s,
  (Raise (CaracterNoValido caracter (linea s) (columna s)), s).

(** [avanzar] *)
Definition avanzar (s : AnalizadorLexico) : AnalizadorLexico :=
  match texto s !! pos s with
  | Some c =>
      if bool_decide (c = salto_de_linea)
      then {| texto := texto s; pos := pos s + 1;
              linea := linea s + 1; columna := 1; tokens := tokens s |}
      else {| texto := texto s; pos := pos s + 1;
              linea := linea s; columna := columna s + 1; tokens := tokens s |}
  | None => s
  end.

(** [caracter_actual] *)
Definition caracter_actual (s : AnalizadorLexico) : option char :=
  texto s !! pos s.

(** [peek] *)
Definition peek (s : AnalizadorLexico) : option char :=
  let pos_siguiente := pos s + 1 in
  texto s !! pos_siguiente.

(** The characters not yet consumed: the bound of every loop. *)
Definition restante (s : AnalizadorLexico) : nat := length (texto s) - pos s.

(** The loop shared by the three readers,
    [while self.caracter_actual() and p(self.caracter_actual()):
       resultado += self.caracter_actual(); self.avanzar()]. *)
Fixpoint bucle (p : char → bool) (n : nat) (resultado : str) : M str := λ s,
  match caracter_actual s with
  | Some c =>
      if p c then
        match n with
        | 0 => (OutOfFuel, s)
        | S n' => bucle p n' (resultado ++ [c]) (avanzar s)
        end
      else (Ret resultado, s)
  | None => (Ret resultado, s)
  end.

Definition mientras (p : char → bool) (resultado : str) : M str := λ s,
  bucle p (restante s) resultado s.

(** [saltar_espacios]: the same loop, keeping nothing. *)
Definition saltar_espacios : M unit :=
  mientras isspace [] ;;; ret tt.

Definition es (c : char) (o : option char) : bool := bool_decide (o = Some c).
Definition cumple (p : char → bool) (o : option char) : bool :=
  match o with Some c => p c | None => false end.

(** [leer_numero] *)
Definition leer_numero : M Token :=
  col_inicio ←← gets columna;
  linea_inicio ←← gets linea;
  resultado ←← mientras isdigit [];
  actual ←← gets caracter_actual;
  siguiente ←← gets peek;
  if es punto actual && cumple isdigit siguiente then
    modify avanzar ;;;
    resultado ←← mientras isdigit (resultado ++ [punto]);
    x ←← lift_value resultado (float_ resultado);
    ret (mkToken REAL (VFloat x) linea_inicio col_inicio)
  else
    z ←← lift_value resultado (int_ resultado);
    ret (mkToken ENTERO (VInt z) linea_inicio col_inicio).

(** [leer_identificador] *)
Definition leer_identificador : M Token :=
  col_inicio ←← gets columna;
  linea_inicio ←← gets linea;
  resultado ←← mientras (λ c, isalnum c || bool_decide (c = guion_bajo)) [];
  ret (mkToken ID (VStr resultado) linea_inicio col_inicio).

(** [self.tokens.append(t)] *)
Definition append (t : Token) : M unit :=
  modify (λ s, {| texto := texto s; pos := pos s; linea := linea s;
                  columna := columna s; tokens := tokens s ++ [t] |}).

(** One iteration of the loop of [analizar], on the current character. *)
Definition despachar (c : char) : M unit :=
  if isspace c then saltar_espacios
  else if isdigit c then token ←← leer_numero; append token
  else if isalpha c || bool_decide (c = guion_bajo)
  then token ←← leer_identificador; append token
  else error c.

Fixpoint analizar_bucle (n : nat) : M unit := λ s,
  match caracter_actual s with
  | Some c =>
      match n with
      | 0 => (OutOfFuel, s)
      | S n' => (despachar c ;;; analizar_bucle n') s
      end
  | None => (Ret tt, s)
  end.

(** [analizar] *)
Definition analizar : M (list Token) :=
  modify (λ s, {| texto := texto s; pos := pos s; linea := linea s;
                  columna := columna s; tokens := [] |}) ;;;
  (λ s, analizar_bucle (restante s) s) ;;;
  gets tokens.

End Lexer.

(** ** Texts made of numeric literals *)



Definition digitos (ds : str) : Prop :=
  ds ≠ [] ∧ Forall (λ c, ascii_isdigit c = true) ds.




(** ** Identifiers of the ASCII range *)

(** The strings of [[A-Za-z_][A-Za-z0-9_]*], the pattern the docstring of
    [leer_identificador] gives. *)
Definition inicio_identificador (c : char) : bool :=
  ascii_isalpha c || bool_decide (c = guion_bajo).
Definition resto_identificador (c : char) : bool :=
  ascii_isalpha c || ascii_isdigit c || bool_decide (c = guion_bajo).
Definition es_identificador (lex : str) : bool :=
  match lex with
  | c :: r => inicio_identificador c && forallb resto_identificador r
  | [] => false
  end.

(** ** Notions used to state the properties *)

Section Nociones.
Context `{Host}.

(** The longest prefix of a text whose characters satisfy [p]. *)
Fixpoint prefijo (p : char → bool) (l : str) : str :=
  match l with
  | c :: l' => if p c then c :: prefijo p l' else []
  | [] => []
  end.

(** The unread part of the text. *)
Definition resto (s : AnalizadorLexico) : str := drop (pos s) (texto s).

(** [k] calls of [avanzar]. *)
Fixpoint avanzar_n (k : nat) (s : AnalizadorLexico) : AnalizadorLexico :=
  match k with
  | 0 => s
  | S k' => avanzar_n k' (avanzar s)
  end.

(** The effect of consuming one character on the pair (line, column). *)
Definition avance (lc : nat * nat) (c : char) : nat * nat :=
  if bool_decide (c = salto_de_linea) then (lc.1 + 1, 1) else (lc.1, lc.2 + 1).

(** The (line, column) the scanner has at offset [i] of a text. *)
Definition lincol (t : str) (i : nat) : nat * nat :=
  fold_left avance (take i t) (1, 1).

(** What a reader hands back once its literal has been converted. *)
Definition emitir {A} (literal : str) (o : option A) (f : A → Token) : Outcome Token :=
  match o with
  | Some a => Ret (f a)
  | None => Raise (ValueError literal)
  end.

(** The instance with one more token appended. *)
Definition con_token (t : Token) (s : AnalizadorLexico) : AnalizadorLexico :=
  {| texto := texto s; pos := pos s; linea := linea s;
     columna := columna s; tokens := tokens s ++ [t] |}.

(** The instance of a fresh call of [analizar]: the token list is reset,
    the cursor is not. *)
Definition reiniciar (s : AnalizadorLexico) : AnalizadorLexico :=
  {| texto := texto s; pos := pos s; linea := linea s;
     columna := columna s; tokens := [] |}.

(** The 1-based line of offset [i]: one more than the newlines before it. *)
Definition linea_de (t : str) (i : nat) : nat :=
  1 + length (filter (λ c, c = salto_de_linea) (take i t)).

(** The 1-based column of offset [i]: one more than the characters that
    separate it from the last newline before it (or from the start). *)
Definition columna_de (t : str) (i : nat) : nat :=
  1 + length (prefijo (λ c, negb (bool_decide (c = salto_de_linea)))
                (reverse (take i t))).

(** Document order on (line, column) pairs. *)
Definition antes (a b : nat * nat) : Prop :=
  a.1 < b.1 ∨ (a.1 = b.1 ∧ a.2 < b.2).

(** The cursor fields agree with the offset. *)
Definition coherente (s : AnalizadorLexico) : Prop :=
  (linea s, columna s) = lincol (texto s) (pos s).

(** The runs of the loop of [analizar], iteration by iteration. *)
Inductive Corrida : AnalizadorLexico → Outcome unit → AnalizadorLexico → Prop :=
  | corrida_fin s :
      caracter_actual s = None → Corrida s (Ret tt) s
  | corrida_lanza s c e s' :
      caracter_actual s = Some c → despachar c s = (Raise e, s') →
      Corrida s (Raise e) s'
  | corrida_paso s c s' o s'' :
      caracter_actual s = Some c → despachar c s = (Ret tt, s') →
      Corrida s' o s'' → Corrida s o s''.

(** One completed iteration of the loop. *)
Definition iteracion (s s' : AnalizadorLexico) : Prop :=
  ∃ c, caracter_actual s = Some c ∧ despachar c s = (Ret tt, s').

(** The loop, started at [s], comes back to its head at [s']. *)
Definition alcanza : AnalizadorLexico → AnalizadorLexico → Prop := rtc iteracion.

(** The literal a token was read from determines its value. *)
Definition lexema_de (tok : Token) (lit : str) : Prop :=
  match tipo tok with
  | ID => valor tok = VStr lit
  | ENTERO => ∃ z, int_ lit = Some z ∧ valor tok = VInt z
  | REAL => ∃ x, float_ lit = Some x ∧ valor tok = VFloat x
  end.

(** Token [tok] was read from a literal whose first character is at
    offset [i] of [t], and carries the line and column of that offset. *)
Definition en_inicio (t : str) (i : nat) (tok : Token) : Prop :=
  ∃ lit, lit ≠ [] ∧ lit `prefix_of` drop i t ∧ lexema_de tok lit ∧
         tok_linea tok = linea_de t i ∧ tok_columna tok = columna_de t i.

(** The integer a string of decimal digits denotes in positional
    notation: each digit weighs the power of ten of its place. *)
Fixpoint valor_posicional (ds : list nat) : Z :=
  match ds with
  | [] => 0
  | d :: ds' => Z.of_nat d * 10 ^ Z.of_nat (length ds') + valor_posicional ds'
  end%Z.

(** The two shapes of the literal of a number. *)
Definition forma_entera (lit : str) : Prop :=
  Forall (λ c, isdigit c = true) lit.

Definition forma_real (lit : str) : Prop :=
  ∃ ds fs, lit = ds ++ punto :: fs ∧ ds ≠ [] ∧ fs ≠ [] ∧
           Forall (λ c, isdigit c = true) ds ∧ Forall (λ c, isdigit c = true) fs.

(** What one iteration of the loop does, by the branch taken. *)
Inductive Paso (s : AnalizadorLexico) (c : char) :
    Outcome unit → AnalizadorLexico → Prop :=
  | paso_espacios run r :
      isspace c = true →
      resto s = run ++ r → run ≠ [] → run = prefijo isspace (resto s) →
      Paso s c (Ret tt) (avanzar_n (length run) s)
  | paso_numero lit r tok :
      isspace c = false → isdigit c = true →
      resto s = lit ++ r → lit ≠ [] →
      (tipo tok = ENTERO ∧ forma_entera lit ∨ tipo tok = REAL ∧ forma_real lit) →
      lexema_de tok lit →
      tok_linea tok = linea s → tok_columna tok = columna s →
      Paso s c (Ret tt) (con_token tok (avanzar_n (length lit) s))
  | paso_value_error lit r :
      isspace c = false → isdigit c = true →
      resto s = lit ++ r → lit ≠ [] →
      (forma_entera lit ∧ int_ lit = None ∨ forma_real lit ∧ float_ lit = None) →
      Paso s c (Raise (ValueError lit)) (avanzar_n (length lit) s)
  | paso_identificador lit r :
      isspace c = false → isdigit c = false →
      isalpha c || bool_decide (c = guion_bajo) = true →
      resto s = lit ++ r → lit ≠ [] →
      lit = prefijo (λ c, isalnum c || bool_decide (c = guion_bajo)) (resto s) →
      Paso s c (Ret tt)
        (con_token (mkToken ID (VStr lit) (linea s) (columna s))
           (avanzar_n (length lit) s))
  | paso_error :
      isspace c = false → isdigit c = false →
      isalpha c || bool_decide (c = guion_bajo) = false →
      Paso s c (Raise (CaracterNoValido c (linea s) (columna s))) s.

(** What holds of the instance whenever the loop is at its head: the
    cursor is coherent, and the tokens read so far start at increasing
    offsets before the cursor. *)
Definition invariante (s : AnalizadorLexico) : Prop :=
  coherente s ∧
  ∃ offs : list nat,
    Forall2 (en_inicio (texto s)) offs (tokens s) ∧
    StronglySorted lt offs ∧
    Forall (λ i, i < pos s) offs.

(** Whitespace, as the host classifies it. *)
Definition blancos (ws : str) : Prop := Forall (λ c, isspace c = true) ws.



(** The value [analizar] hands back after its loop. *)
Definition resultado (o : Outcome unit) (s : AnalizadorLexico) : Outcome (list Token) :=
  match o with
  | Ret _ => Ret (tokens s)
  | Raise e => Raise e
  | OutOfFuel => OutOfFuel
  end.

End Nociones.

(** ** The text as the scan cuts it *)

Section Trozos.
Context `{Host}.

(** The character class of the loop of [leer_identificador]. *)
Definition alfanumerico (c : char) : bool :=
  isalnum c || bool_decide (c = guion_bajo).

(** A piece of the text: a run of whitespace that was skipped, or the
    literal a token was read from. *)
Inductive Trozo :=
  | Blanco (ws : str)
  | Lexema (tok : Token) (lit : str).

Definition texto_de_trozo (tr : Trozo) : str :=
  match tr with Blanco ws => ws | Lexema _ lit => lit end.

Definition aplanar (trs : list Trozo) : str := concat (texto_de_trozo <$> trs).

Definition tokens_de (trs : list Trozo) : list Token :=
  omap (λ tr, match tr with Lexema tok _ => Some tok | Blanco _ => None end) trs.

(** Token [tok] was read by the loop of [analizar] from the literal [lit]
    that starts with [c]: an identifier starts with a letter or an
    underscore that is neither whitespace nor a digit and is made of
    alphanumeric characters and underscores; a number starts with a digit
    that is no whitespace and has one of the two numeric shapes. *)
Definition lectura (c : char) (lit : str) (tok : Token) : Prop :=
  head lit = Some c ∧ isspace c = false ∧
  match tipo tok with
  | ID =>
      valor tok = VStr lit ∧
      isalpha c || bool_decide (c = guion_bajo) = true ∧ isdigit c = false ∧
      Forall (λ c, alfanumerico c = true) lit
  | ENTERO => lexema_de tok lit ∧ isdigit c = true ∧ forma_entera lit
  | REAL => lexema_de tok lit ∧ isdigit c = true ∧ forma_real lit
  end.

Definition trozo_valido (tr : Trozo) : Prop :=
  match tr with
  | Blanco ws => ws ≠ [] ∧ blancos ws
  | Lexema tok lit => ∃ c, lectura c lit tok
  end.

(** The part of the text before the cursor is cut into valid pieces, and
    the tokens read so far are those of the pieces. *)
Definition particion (s : AnalizadorLexico) : Prop :=
  ∃ trs, aplanar trs = take (pos s) (texto s) ∧ tokens_de trs = tokens s ∧
         Forall trozo_valido trs.

(** Token [tok] carries the line and column of offset [i] of the text,
    which is an offset of one of its characters. *)
Definition posicion_en (t : str) (i : nat) (tok : Token) : Prop :=
  i < length t ∧ tok_linea tok = linea_de t i ∧ tok_columna tok = columna_de t i.

(** [P j tok] holds of every token [tok] of the pieces, [j] being the
    offset at which the literal of [tok] starts when the first piece
    starts at offset [i]: the lengths of the pieces before it, added up. *)
Fixpoint en_offsets (P : nat → Token → Prop) (i : nat) (trs : list Trozo) : Prop :=
  match trs with
  | [] => True
  | tr :: trs' =>
      match tr with Lexema tok _ => P i tok | Blanco _ => True end ∧
      en_offsets P (i + length (texto_de_trozo tr)) trs'
  end.

(** What ends a piece, as the loops of the readers test it on the text
    [r] that follows: whitespace ends before a character that is no
    whitespace, an identifier before one that is neither alphanumeric nor
    an underscore, a number before one that is no digit, and an integer
    is not followed by a dot and a digit.  The end of the text ends any
    piece. *)
Definition tope (tr : Trozo) (r : str) : Prop :=
  match tr with
  | Blanco _ => cumple isspace (head r) = false
  | Lexema tok _ =>
      match tipo tok with
      | ID => cumple alfanumerico (head r) = false
      | ENTERO => cumple isdigit (head r) = false ∧
                  es punto (head r) && cumple isdigit (r !! 1) = false
      | REAL => cumple isdigit (head r) = false
      end
  end.

(** Every piece is ended, in the sense [T], by the text after it: the
    later pieces, then [fin]. *)
Fixpoint cortes (T : Trozo → str → Prop) (trs : list Trozo) (fin : str) : Prop :=
  match trs with
  | [] => True
  | tr :: trs' => T tr (aplanar trs' ++ fin) ∧ cortes T trs' fin
  end.

(** The scan so far, when the loop is at its head: the text before the
    cursor is cut into valid pieces, each as long as its reader could
    make it; the tokens read so far are those of the pieces, in order,
    and each carries the line and column of the offset where its piece
    starts. *)
Definition traza (s : AnalizadorLexico) : Prop :=
  ∃ trs, aplanar trs = take (pos s) (texto s) ∧ tokens_de trs = tokens s ∧
         Forall trozo_valido trs ∧ cortes tope trs (resto s) ∧
         en_offsets (posicion_en (texto s)) 0 trs.

(** The integer a string of ASCII digits denotes. *)
Definition valor_de_digitos (ds : str) : Z :=
  valor_posicional ((λ c, N.to_nat (c - 48)) <$> ds).

(** The pieces in terms of the ASCII patterns: whitespace, an identifier
    [A-Za-z_][A-Za-z0-9_]* whose value is its literal, an integer [0-9]+
    whose value is the integer its digits denote, a real [0-9]+\.[0-9]+
    whose value is the conversion of its literal. *)
Definition trozo_ascii (tr : Trozo) : Prop :=
  match tr with
  | Blanco ws => ws ≠ [] ∧ Forall (λ c, ascii_isspace c = true) ws
  | Lexema tok lit =>
      match tipo tok with
      | ID => valor tok = VStr lit ∧ es_identificador lit = true
      | ENTERO => digitos lit ∧ valor tok = VInt (valor_de_digitos lit)
      | REAL => ∃ ds fs, lit = ds ++ punto :: fs ∧ digitos ds ∧ digitos fs ∧
                         valor tok = VFloat (strtod lit)
      end
  end.

(** [tope], with the ASCII classes. *)
Definition tope_ascii (tr : Trozo) (r : str) : Prop :=
  match tr with
  | Blanco _ => cumple ascii_isspace (head r) = false
  | Lexema tok _ =>
      match tipo tok with
      | ID => cumple resto_identificador (head r) = false
      | ENTERO => cumple ascii_isdigit (head r) = false ∧
                  es punto (head r) && cumple ascii_isdigit (r !! 1) = false
      | REAL => cumple ascii_isdigit (head r) = false
      end
  end.

End Trozos.

(** ** A concrete host: the Latin-1 block of the Unicode database *)

(** The tables below are those of CPython for the code points U+0000 to
    U+00FF; beyond that block this instance classifies nothing, so it is
    meant for evaluating the scanner on Latin-1 texts.  Floats are kept
    symbolic (the normalised literal stands for its rounding), and the
    limit on [int] conversions is CPython's default. *)
Module Latin1.

Definition isspace (c : char) : bool :=
  ascii_isspace c || (c =? 133)%N || (c =? 160)%N.
Definition isdigit (c : char) : bool :=
  ascii_isdigit c || entre 178 179 c || (c =? 185)%N.
Definition isnumeric (c : char) : bool :=
  isdigit c || entre 188 190 c.
Definition isalpha (c : char) : bool :=
  ascii_isalpha c || (c =? 170)%N || (c =? 181)%N || (c =? 186)%N
  || entre 192 214 c || entre 216 246 c || entre 248 255 c.

End Latin1.

(** Goals about the tables: the boolean tests become arithmetic. *)
Ltac casos_N :=
  unfold Latin1.isnumeric, Latin1.isspace, Latin1.isdigit, Latin1.isalpha,
    ascii_decimal, ascii_isspace, ascii_isdigit, ascii_isalpha, es_ascii, entre,
    punto, guion_bajo, salto_de_linea in *;
  lazymatch goal with
  | |- _ = true => idtac
  | |- _ = false => idtac
  | |- @eq bool _ _ => apply Bool.eq_iff_eq_true
  | _ => idtac
  end;
  rewrite ?orb_true_iff, ?andb_true_iff, ?orb_false_iff, ?andb_false_iff,
    ?N.leb_le, ?N.leb_gt, ?N.eqb_eq, ?N.eqb_neq, ?N.ltb_lt in *;
  try lia.

#[export] Program Instance latin1 : Host := {|
  isspace := Latin1.isspace;
  isdigit := Latin1.isdigit;
  isalpha := Latin1.isalpha;
  isnumeric := Latin1.isnumeric;
  decimal := ascii_decimal;
  flotante := str;
  strtod := id;
  int_max_str_digits := 4300;
|}.
Next Obligation. intros c Hc. casos_N. Qed.
Next Obligation. intros c Hc. casos_N. Qed.
Next Obligation. intros c Hc. casos_N. Qed.
Next Obligation. intros c Hc. casos_N. Qed.
Next Obligation. done. Qed.
Next Obligation.
  intros c d Hd. unfold ascii_decimal in Hd.
  destruct (ascii_isdigit c) eqn:E; simplify_eq.
  split; [unfold Latin1.isdigit; by rewrite E | casos_N].
Qed.
Next Obligation. intros c Hc. casos_N. Qed.
Next Obligation. right. lia. Qed.

(** ** Symbolic execution of the cursor and of the loops *)

Section Ejecucion.
Context `{Host}.

Lemma prefijo_Forall p l : Forall (λ c, p c = true) (prefijo p l).
Proof.
  induction l as [|c l IH]; simpl; [constructor|].
  destruct (p c) eqn:E; constructor; auto.
Qed.

Lemma prefijo_split p l : l = prefijo p l ++ drop (length (prefijo p l)) l.
Proof.
  induction l as [|c l IH]; simpl; [done|].
  destruct (p c); simpl; [by rewrite <- IH | done].
Qed.

Lemma prefijo_stop p l : cumple p (head (drop (length (prefijo p l)) l)) = false.
Proof.
  induction l as [|c l IH]; simpl; [done|].
  destruct (p c) eqn:E; simpl; [done | by rewrite E].
Qed.

Lemma prefijo_app p run r :
  Forall (λ c, p c = true) run → cumple p (head r) = false →
  prefijo p (run ++ r) = run.
Proof.
  intros Hrun Hr. induction Hrun as [|c run Hc _ IH]; simpl.
  - destruct r as [|c r]; simpl in *; [done | by rewrite Hr].
  - by rewrite Hc, IH.
Qed.

Lemma caracter_actual_resto s : caracter_actual s = head (resto s).
Proof.
  unfold caracter_actual, resto. rewrite head_lookup, lookup_drop.
  by rewrite Nat.add_0_r.
Qed.

Lemma peek_resto s : peek s = resto s !! 1.
Proof. unfold peek, resto. by rewrite lookup_drop. Qed.

Lemma resto_cons s c r :
  resto s = c :: r → texto s !! pos s = Some c ∧ drop (S (pos s)) (texto s) = r.
Proof.
  unfold resto. intros E.
  assert (Hc : texto s !! pos s = Some c).
  { pose proof (lookup_drop (texto s) (pos s) 0) as Hd.
    rewrite Nat.add_0_r in Hd. by rewrite <- Hd, E. }
  split; [done|]. rewrite (drop_S _ _ _ Hc) in E. by simplify_eq.
Qed.

Lemma resto_nil s : resto s = [] → avanzar s = s.
Proof.
  intros E. unfold avanzar.
  assert (texto s !! pos s = None) as ->; [|done].
  pose proof (lookup_drop (texto s) (pos s) 0) as Hd.
  rewrite Nat.add_0_r in Hd. rewrite <- Hd. fold (resto s). by rewrite E.
Qed.

Lemma avanzar_cons s c r :
  resto s = c :: r →
  avanzar s = {| texto := texto s; pos := pos s + 1;
                 linea := (avance (linea s, columna s) c).1;
                 columna := (avance (linea s, columna s) c).2;
                 tokens := tokens s |}.
Proof.
  intros [Hc _]%resto_cons. unfold avanzar, avance. rewrite Hc.
  by case_bool_decide.
Qed.

Lemma resto_avanzar s c r : resto s = c :: r → resto (avanzar s) = r.
Proof.
  intros E. rewrite (avanzar_cons _ _ _ E). unfold resto; simpl.
  apply resto_cons in E as [_ <-]. by rewrite Nat.add_1_r.
Qed.

Lemma avanzar_n_app s run r :
  resto s = run ++ r →
  avanzar_n (length run) s =
    {| texto := texto s; pos := pos s + length run;
       linea := (fold_left avance run (linea s, columna s)).1;
       columna := (fold_left avance run (linea s, columna s)).2;
       tokens := tokens s |}.
Proof.
  revert s. induction run as [|c run IH]; intros s E; simpl.
  - rewrite Nat.add_0_r. by destruct s.
  - rewrite IH by (by eapply resto_avanzar).
    rewrite (avanzar_cons _ _ _ E); simpl.
    f_equal; [lia | |]; by destruct (avance _ _).
Qed.

Lemma resto_avanzar_n s run r :
  resto s = run ++ r → resto (avanzar_n (length run) s) = r.
Proof.
  intros E. rewrite (avanzar_n_app _ _ _ E). unfold resto in *; simpl.
  by rewrite <- drop_drop, E, drop_app_length.
Qed.

Lemma avanzar_n_add j k s : avanzar_n (j + k) s = avanzar_n k (avanzar_n j s).
Proof. revert s. induction j as [|j IH]; intros s; simpl; [done | apply IH]. Qed.

Lemma restante_resto s : length (resto s) = restante s.
Proof. unfold resto, restante. by rewrite length_drop. Qed.

(** A loop with enough fuel reads exactly the longest prefix. *)
Lemma bucle_eq p n acc s :
  restante s ≤ n →
  bucle p n acc s =
    (Ret (acc ++ prefijo p (resto s)), avanzar_n (length (prefijo p (resto s))) s).
Proof.
  revert acc s. induction n as [|n IH]; intros acc s Hn;
    rewrite <- restante_resto in Hn.
  - destruct (resto s) eqn:E; [|simpl in Hn; lia].
    simpl. rewrite caracter_actual_resto, E. simpl. by rewrite app_nil_r.
  - simpl. rewrite caracter_actual_resto. destruct (resto s) as [|c r] eqn:E; simpl.
    + by rewrite app_nil_r.
    + destruct (p c) eqn:Ep; simpl; [|by rewrite app_nil_r].
      rewrite IH.
      * rewrite (resto_avanzar _ _ _ E). by rewrite <- app_assoc.
      * rewrite <- restante_resto, (resto_avanzar _ _ _ E). simpl in Hn. lia.
Qed.

Lemma mientras_eq p acc s :
  mientras p acc s =
    (Ret (acc ++ prefijo p (resto s)), avanzar_n (length (prefijo p (resto s))) s).
Proof. unfold mientras. by apply bucle_eq. Qed.

End Ejecucion.

Section Lectores.
Context `{Host}.

Lemma head_drop_prefijo p (l : list N) :
  cumple p (head (drop (length (prefijo p l)) l)) = false.
Proof. apply prefijo_stop. Qed.

(** [leer_numero], in closed form. *)
Lemma leer_numero_eq s :
  leer_numero s =
    let ds := prefijo isdigit (resto s) in
    let r1 := drop (length ds) (resto s) in
    if es punto (head r1) && cumple isdigit (r1 !! 1) then
      let fs := prefijo isdigit (drop 1 r1) in
      (emitir (ds ++ punto :: fs) (float_ (ds ++ punto :: fs))
         (λ x, mkToken REAL (VFloat x) (linea s) (columna s)),
       avanzar_n (length ds + 1 + length fs) s)
    else
      (emitir ds (int_ ds) (λ z, mkToken ENTERO (VInt z) (linea s) (columna s)),
       avanzar_n (length ds) s).
Proof.
  unfold leer_numero, bind, gets. rewrite mientras_eq. simpl.
  set (ds := prefijo isdigit (resto s)).
  set (s1 := avanzar_n (length ds) s).
  assert (Hr1 : resto s1 = drop (length ds) (resto s)).
  { apply resto_avanzar_n. apply prefijo_split. }
  rewrite caracter_actual_resto, peek_resto, Hr1.
  destruct (es punto (head _) && cumple isdigit _) eqn:E; simpl.
  - apply andb_true_iff in E as [E1 _].
    unfold es in E1. apply bool_decide_eq_true in E1.
    destruct (drop (length ds) (resto s)) as [|c r1] eqn:Er; simplify_eq/=.
    unfold modify. rewrite mientras_eq.
    rewrite (resto_avanzar _ _ _ Hr1), drop_0.
    set (fs := prefijo isdigit r1).
    replace (avanzar_n (length fs) (avanzar s1))
      with (avanzar_n (length ds + 1 + length fs) s).
    2:{ rewrite !avanzar_n_add. done. }
    rewrite <- app_assoc. simpl.
    unfold lift_value, emitir. by destruct (float_ _).
  - unfold lift_value, emitir. by destruct (int_ _).
Qed.

(** [leer_identificador], in closed form. *)
Lemma leer_identificador_eq s :
  leer_identificador s =
    let lex := prefijo (λ c, isalnum c || bool_decide (c = guion_bajo)) (resto s) in
    (Ret (mkToken ID (VStr lex) (linea s) (columna s)), avanzar_n (length lex) s).
Proof. unfold leer_identificador, bind, gets. by rewrite mientras_eq. Qed.

(** [saltar_espacios], in closed form. *)
Lemma saltar_espacios_eq s :
  saltar_espacios s =
    (Ret tt, avanzar_n (length (prefijo isspace (resto s))) s).
Proof. unfold saltar_espacios, bind. by rewrite mientras_eq. Qed.

End Lectores.

(** ** The dispatch loop *)

Section Bucle.
Context `{Host}.

Lemma prefijo_cons_ne p c (r : list N) : p c = true → prefijo p (c :: r) ≠ [].
Proof. simpl. by intros ->. Qed.

(** Every iteration takes one of the five branches of [Paso]. *)
Lemma despachar_paso s c :
  caracter_actual s = Some c → Paso s c (despachar c s).1 (despachar c s).2.
Proof.
  rewrite caracter_actual_resto. intros Hc.
  destruct (resto s) as [|c' r] eqn:Er; simplify_eq/=.
  unfold despachar.
  destruct (isspace c) eqn:Esp.
  { rewrite saltar_espacios_eq; simpl.
    eapply paso_espacios; [done | apply prefijo_split | | done].
    rewrite Er. by apply prefijo_cons_ne. }
  destruct (isdigit c) eqn:Edig.
  { unfold bind. rewrite leer_numero_eq. simpl.
    set (ds := prefijo isdigit (resto s)).
    assert (Hds : ds ≠ []) by (unfold ds; rewrite Er; by apply prefijo_cons_ne).
    assert (Hsplit : resto s = ds ++ drop (length ds) (resto s))
      by apply prefijo_split.
    destruct (es punto (head _) && cumple isdigit _) eqn:E.
    - apply andb_true_iff in E as [E1 E2].
      apply bool_decide_eq_true in E1.
      destruct (drop (length ds) (resto s)) as [|c1 r1] eqn:Er1; simplify_eq/=.
      rewrite drop_0.
      set (fs := prefijo isdigit r1).
      assert (Hfs : fs ≠ []).
      { destruct r1 as [|d r1]; [done|]. by apply prefijo_cons_ne. }
      assert (Hreal : forma_real (ds ++ punto :: fs)).
      { exists ds, fs. split_and!; try done; apply prefijo_Forall. }
      replace (length ds + 1 + length fs) with (length (ds ++ punto :: fs))
        by (rewrite length_app; simpl; lia).
      assert (Hlit : resto s = (ds ++ punto :: fs) ++ drop (length fs) r1).
      { etrans; [exact Hsplit|]. rewrite <- app_assoc. simpl.
        do 2 f_equal. apply prefijo_split. }
      assert (ds ++ punto :: fs ≠ []) by (by destruct ds).
      unfold emitir. destruct (float_ _) as [x|] eqn:Ef; simpl.
      + eapply paso_numero; eauto. unfold lexema_de; simpl. eauto.
      + eapply paso_value_error; eauto.
    - assert (Hent : forma_entera ds) by apply prefijo_Forall.
      unfold emitir. destruct (int_ ds) as [z|] eqn:Ei; simpl.
      + eapply paso_numero; eauto. unfold lexema_de; simpl. eauto.
      + eapply paso_value_error; eauto. }
  destruct (isalpha c || bool_decide (c = guion_bajo)) eqn:Eal.
  { unfold bind. rewrite leer_identificador_eq. simpl.
    eapply paso_identificador; [done | done | done | apply prefijo_split | | done].
    rewrite Er. apply prefijo_cons_ne.
    unfold isalnum. apply orb_true_iff in Eal as [->| ->]; [done|].
    by rewrite orb_true_r. }
  unfold error. simpl. by apply paso_error.
Qed.

Lemma despachar_inv s c o s' :
  caracter_actual s = Some c → despachar c s = (o, s') → Paso s c o s'.
Proof. intros Hc E. pose proof (despachar_paso s c Hc) as HP. by rewrite E in HP. Qed.

Lemma pos_avanzar_n s run r :
  resto s = run ++ r → pos (avanzar_n (length run) s) = pos s + length run.
Proof. intros E. by rewrite (avanzar_n_app _ _ _ E). Qed.

Lemma texto_avanzar_n s run r :
  resto s = run ++ r → texto (avanzar_n (length run) s) = texto s.
Proof. intros E. by rewrite (avanzar_n_app _ _ _ E). Qed.

Lemma tokens_avanzar_n s run r :
  resto s = run ++ r → tokens (avanzar_n (length run) s) = tokens s.
Proof. intros E. by rewrite (avanzar_n_app _ _ _ E). Qed.

Lemma restante_avanzar_n s run r :
  resto s = run ++ r → run ≠ [] →
  restante (avanzar_n (length run) s) < restante s.
Proof.
  intros E Hne. rewrite <- !restante_resto, (resto_avanzar_n _ _ _ E), E, length_app.
  destruct run; [done | simpl; lia].
Qed.

(** An iteration never exhausts its fuel, keeps the text, and either
    moves the cursor forward or raises without moving it. *)
Lemma Paso_progreso s c o s' :
  Paso s c o s' →
  o ≠ OutOfFuel ∧ texto s' = texto s ∧
  (pos s < pos s' ∧ restante s' < restante s ∨
   o = Raise (CaracterNoValido c (linea s) (columna s)) ∧ s' = s).
Proof.
  destruct 1 as [run r ? E Hne|lit r tok ? ? E Hne|lit r ? ? E Hne|lit r ? ? ? E Hne|];
    (split; [done|]); simpl;
    rewrite ?(texto_avanzar_n _ _ _ E), ?(pos_avanzar_n _ _ _ E);
    (split; [done|]); [left|left|left|left|right; done];
    (split; [destruct run || destruct lit; [done | simpl; lia] |]).
  - by eapply restante_avanzar_n.
  - unfold restante; simpl. by eapply restante_avanzar_n.
  - by eapply restante_avanzar_n.
  - unfold restante; simpl. by eapply restante_avanzar_n.
Qed.

(** With fuel for the unread characters, the loop is a run. *)
Lemma analizar_bucle_corrida n s :
  restante s ≤ n → Corrida s (analizar_bucle n s).1 (analizar_bucle n s).2.
Proof.
  revert s. induction n as [|n IH]; intros s Hn.
  - assert (caracter_actual s = None) as Hc.
    { rewrite caracter_actual_resto. rewrite <- restante_resto in Hn.
      by destruct (resto s); [|simpl in Hn; lia]. }
    simpl. rewrite Hc. simpl. by constructor.
  - simpl. destruct (caracter_actual s) as [c|] eqn:Hc; simpl; [|by constructor].
    unfold bind. destruct (despachar c s) as [o s'] eqn:Ed.
    pose proof (despachar_inv _ _ _ _ Hc Ed) as HP.
    destruct (Paso_progreso _ _ _ _ HP) as (Hfuel & _ & Hprog).
    destruct o as [[]|e|]; simpl; [| by eapply corrida_lanza | done].
    eapply corrida_paso; eauto. apply IH.
    destruct Hprog as [[_ ?]|[? _]]; [lia | done].
Qed.

Lemma Corrida_det s o1 s1 o2 s2 :
  Corrida s o1 s1 → Corrida s o2 s2 → o1 = o2 ∧ s1 = s2.
Proof.
  intros H1. revert o2 s2.
  induction H1 as [s Hc|s c e s' Hc Hd|s c s' o s'' Hc Hd _ IH];
    intros o2 s2 H2;
    inversion H2 as [? Hc2|? c2 ? ? Hc2 Hd2|? c2 ? ? ? Hc2 Hd2 Hrun2]; subst;
    rewrite Hc in Hc2; simplify_eq; try done;
    rewrite Hd in Hd2; simplify_eq; [done|].
  by apply IH.
Qed.

Lemma analizar_eq s :
  analizar s =
    let r := analizar_bucle (restante s) (reiniciar s) in (resultado r.1 r.2, r.2).
Proof.
  unfold analizar, bind, modify, gets. fold (reiniciar s).
  change (restante (reiniciar s)) with (restante s).
  destruct (analizar_bucle _ _) as [[[]|e|] s']; done.
Qed.

Lemma Corrida_fuel s o s' : Corrida s o s' → o ≠ OutOfFuel.
Proof. induction 1; done. Qed.

Lemma resultado_inj o1 o2 s :
  o1 ≠ OutOfFuel → o2 ≠ OutOfFuel → resultado o1 s = resultado o2 s → o1 = o2.
Proof. destruct o1 as [[]|?|], o2 as [[]|?|]; intros; simplify_eq/=; done. Qed.

(** [analizar] is the run of its loop from the reset instance. *)
Lemma analizar_corrida s o s' :
  Corrida (reiniciar s) o s' ↔ analizar s = (resultado o s', s') ∧ o ≠ OutOfFuel.
Proof.
  pose proof (analizar_bucle_corrida (restante s) (reiniciar s) (le_n _)) as Hrun.
  rewrite analizar_eq. simpl. split.
  - intros Hc. destruct (Corrida_det _ _ _ _ _ Hc Hrun) as [-> ->].
    split; [done|]. by eapply Corrida_fuel.
  - intros [E Ho]. injection E as E1 E2. rewrite E2 in *.
    apply resultado_inj in E1; [by rewrite <- E1 | by eapply Corrida_fuel | done].
Qed.

End Bucle.

(** ** Lines, columns and the invariant of the loop *)

Section Posiciones.
Context `{Host}.

Lemma fold_avance_eq (l : list N) :
  fold_left avance l (1, 1) =
    (1 + length (filter (λ c, c = salto_de_linea) l),
     1 + length (prefijo (λ c, negb (bool_decide (c = salto_de_linea))) (reverse l))).
Proof.
  induction l as [|c l IH] using rev_ind; [done|].
  rewrite fold_left_app, IH, filter_app, length_app, reverse_snoc. simpl.
  unfold avance. rewrite filter_cons, filter_nil. simpl.
  case_bool_decide; case_decide; simplify_eq/=; try done; f_equal; lia.
Qed.

(** The cursor arithmetic of [avanzar] computes the line and the column
    in the sense of the specification. *)
Lemma lincol_eq t i : lincol t i = (linea_de t i, columna_de t i).
Proof. apply fold_avance_eq. Qed.

Lemma lincol_app t i run r :
  drop i t = run ++ r →
  lincol t (i + length run) = fold_left avance run (lincol t i).
Proof.
  intros E. unfold lincol.
  rewrite <- take_take_drop, fold_left_app, E. by rewrite take_app_length.
Qed.

Lemma antes_trans a b c : antes a b → antes b c → antes a c.
Proof. unfold antes. lia. Qed.

Lemma avance_antes lc c : antes lc (avance lc c).
Proof. unfold antes, avance. case_bool_decide; simpl; lia. Qed.

Lemma fold_avance_antes run lc : run ≠ [] → antes lc (fold_left avance run lc).
Proof.
  revert lc. induction run as [|c run IH]; intros lc Hne; [done|]. simpl.
  destruct run as [|c' run]; [apply avance_antes|].
  eapply antes_trans; [apply avance_antes|]. by apply IH.
Qed.

(** Later offsets have later (line, column) pairs. *)
Lemma lincol_mono t i j :
  i < j → j ≤ length t → antes (lincol t i) (lincol t j).
Proof.
  intros Hij Hj.
  assert (E : drop i t = take (j - i) (drop i t) ++ drop (j - i) (drop i t))
    by (by rewrite take_drop).
  pose proof (lincol_app _ _ _ _ E) as Hl.
  rewrite length_take, length_drop in Hl.
  replace (i + (j - i) `min` (length t - i)) with j in Hl by lia.
  rewrite Hl. apply fold_avance_antes.
  intros Hnil. apply (f_equal length) in Hnil.
  rewrite length_take, length_drop in Hnil. simpl in Hnil. lia.
Qed.

Lemma coherente_init t : coherente (init t).
Proof. done. Qed.

Lemma coherente_avanzar_n s run r :
  resto s = run ++ r → coherente s → coherente (avanzar_n (length run) s).
Proof.
  unfold coherente. intros E Hs. rewrite (avanzar_n_app _ _ _ E). simpl.
  rewrite (lincol_app _ _ _ _ E), <- Hs. by destruct (fold_left _ _ _).
Qed.

Lemma invariante_reiniciar s : coherente s → invariante (reiniciar s).
Proof.
  intros Hs. split; [done|]. exists []. simpl. repeat constructor.
Qed.

Lemma invariante_avanzar_n s run r :
  resto s = run ++ r → invariante s → invariante (avanzar_n (length run) s).
Proof.
  intros E [Hc (offs & Htok & Hsort & Hlt)]. split; [by eapply coherente_avanzar_n|].
  exists offs. rewrite (avanzar_n_app _ _ _ E). simpl. split_and!; [done..|].
  eapply Forall_impl; [done|]. simpl. lia.
Qed.

(** A token read at the cursor extends the invariant. *)
Lemma invariante_con_token s lit r tok :
  resto s = lit ++ r → lit ≠ [] → lexema_de tok lit →
  tok_linea tok = linea s → tok_columna tok = columna s →
  invariante s → invariante (con_token tok (avanzar_n (length lit) s)).
Proof.
  intros E Hne Hlex Hl Hk [Hc (offs & Htok & Hsort & Hlt)].
  split.
  { pose proof (coherente_avanzar_n _ _ _ E Hc) as Hc'. done. }
  exists (offs ++ [pos s]). unfold con_token. rewrite (avanzar_n_app _ _ _ E). simpl.
  split_and!.
  - apply Forall2_app; [done|]. constructor; [|constructor].
    exists lit. split_and!; [done | | done | |].
    + exists r. exact E.
    + unfold coherente in Hc. rewrite lincol_eq in Hc. congruence.
    + unfold coherente in Hc. rewrite lincol_eq in Hc. congruence.
  - apply StronglySorted_app_2; [|done|repeat constructor].
    intros i j Hi ->%list_elem_of_singleton.
    by eapply Forall_forall in Hlt.
  - apply Forall_app. split.
    + eapply Forall_impl; [done|]. simpl. lia.
    + constructor; [|constructor]. destruct lit; [done | simpl; lia].
Qed.

Lemma Paso_invariante s c o s' : Paso s c o s' → invariante s → invariante s'.
Proof.
  destruct 1; intros Hinv; eauto using invariante_avanzar_n, invariante_con_token.
  eapply invariante_con_token; eauto. done.
Qed.

Lemma Paso_texto s c o s' : Paso s c o s' → texto s' = texto s.
Proof. intros HP. by apply Paso_progreso in HP as (_ & ? & _). Qed.

(** The invariant holds when the loop stops, however it stops. *)
Lemma Corrida_invariante s o s' :
  Corrida s o s' → invariante s → invariante s' ∧ texto s' = texto s.
Proof.
  induction 1 as [s Hc|s c e s' Hc Hd|s c s' o s'' Hc Hd _ IH]; intros Hinv.
  - done.
  - apply despachar_inv in Hd; [|done].
    eauto using Paso_invariante, Paso_texto.
  - apply despachar_inv in Hd; [|done].
    destruct IH as [? ->]; eauto using Paso_invariante, Paso_texto.
Qed.

End Posiciones.

(** ** Evaluating the scanner on ASCII texts, whatever the host *)

Ltac tablas_ascii :=
  repeat first
    [ rewrite host_ascii_isspace by reflexivity
    | rewrite host_ascii_isdigit by reflexivity
    | rewrite host_ascii_isalpha by reflexivity
    | rewrite host_ascii_isnumeric by reflexivity
    | rewrite host_ascii_decimal by reflexivity ].

Section Prueba.
Context `{Host}.

Lemma int_corto (lit : list N) ds :
  mapM decimal lit = Some ds → lit ≠ [] → length lit ≤ 640 →
  int_ lit = Some (valor_decimal ds).
Proof.
  intros Hds Hne Hlen. unfold int_. rewrite Hds. simpl.
  rewrite bool_decide_eq_false_2 by done.
  rewrite bool_decide_eq_false_2; [done|].
  destruct host_int_limit; lia.
Qed.

Lemma mapM_decimal_ascii (lit : list N) :
  forallb ascii_isdigit lit = true →
  mapM decimal lit = Some ((λ c, N.to_nat (c - 48)) <$> lit).
Proof.
  induction lit as [|c lit IH]; simpl; [done|].
  intros [Hc Hl]%andb_true_iff.
  rewrite host_ascii_decimal by casos_N.
  unfold ascii_decimal. rewrite Hc, (IH Hl). done.
Qed.

Lemma int_ascii (lit : list N) :
  forallb ascii_isdigit lit = true → lit ≠ [] → length lit ≤ 640 →
  int_ lit = Some (valor_decimal ((λ c, N.to_nat (c - 48)) <$> lit)).
Proof. intros Hd ? ?. apply int_corto; [by apply mapM_decimal_ascii|done..]. Qed.

Lemma analizar_de_corrida s o s' :
  Corrida (reiniciar s) o s' → analizar s = (resultado o s', s').
Proof. by intros [? _]%analizar_corrida. Qed.

Lemma mapM_a_ascii (lit : list N) :
  forallb (λ c, ascii_isdigit c || bool_decide (c = punto)) lit = true →
  mapM a_ascii lit = Some lit.
Proof.
  induction lit as [|c lit IH]; simpl; [done|].
  intros [Hc Hl]%andb_true_iff. rewrite (IH Hl). unfold a_ascii.
  case_bool_decide as Hp; simpl; [by rewrite Hp|].
  rewrite orb_false_r in Hc.
  rewrite host_ascii_decimal by casos_N.
  unfold ascii_decimal. rewrite Hc. simpl. do 3 f_equal. casos_N.
Qed.

Lemma float_ascii (lit : list N) :
  forallb (λ c, ascii_isdigit c || bool_decide (c = punto)) lit = true →
  float_ lit = Some (strtod lit).
Proof. intros Hl. unfold float_. by rewrite mapM_a_ascii. Qed.

End Prueba.

(** One iteration on a concrete ASCII text: the host's tables are
    replaced by the ASCII ones, then the iteration is computed. *)
Ltac un_paso :=
  unfold despachar; tablas_ascii;
  cbn -[int_ float_ leer_numero leer_identificador saltar_espacios];
  unfold bind;
  rewrite ?leer_numero_eq, ?leer_identificador_eq, ?saltar_espacios_eq;
  repeat progress (cbn -[int_ float_]; unfold isalnum; tablas_ascii);
  rewrite ?int_ascii by first [reflexivity | done | simpl; lia];
  rewrite ?float_ascii by reflexivity;
  lazymatch goal with
  | |- ?l = _ =>
      let v := eval vm_compute in l in
      transitivity v; [vm_compute; reflexivity | reflexivity]
  end.

Ltac corrida :=
  repeat first
    [ eapply corrida_paso; [reflexivity | un_paso |]
    | eapply corrida_lanza; [reflexivity | un_paso]
    | eapply corrida_fin; reflexivity ].

Section Ejemplos.
Context `{Host}.

Lemma analizar_ret s s' toks :
  Corrida (reiniciar s) (Ret tt) s' → tokens s' = toks →
  analizar s = (Ret toks, s').
Proof. intros Hc <-. by apply analizar_de_corrida in Hc. Qed.

Lemma analizar_lanza s s' e :
  Corrida (reiniciar s) (Raise e) s' → analizar s = (Raise e, s').
Proof. intros Hc. by apply analizar_de_corrida in Hc. Qed.


Example prueba_reales :
  ∃ s', analizar (init (py "3.14 42 x1")) =
    (Ret [mkToken REAL (VFloat (strtod (py "3.14"))) 1 1;
          mkToken ENTERO (VInt 42) 1 6;
          mkToken ID (VStr (py "x1")) 1 9], s').
Proof.
  replace (py "3.14 42 x1") with [51; 46; 49; 52; 32; 52; 50; 32; 120; 49]%N
    by reflexivity.
  eexists. eapply analizar_ret; [corrida | reflexivity].
Qed.

End Ejemplos.

(** ** Termination *)

Section Terminacion.
Context `{Host}.

Lemma analizar_inv s r s' :
  analizar s = (r, s') → ∃ o, Corrida (reiniciar s) o s' ∧ r = resultado o s'.
Proof.
  rewrite analizar_eq. simpl. intros E.
  pose proof (analizar_bucle_corrida (restante s) (reiniciar s) (le_n _)) as Hrun.
  simplify_eq. eauto.
Qed.

Lemma resultado_ret o s toks : resultado o s = Ret toks → o = Ret tt ∧ toks = tokens s.
Proof. destruct o as [[]|?|]; intros; by simplify_eq/=. Qed.

Lemma Corrida_ret_fin s u s' : Corrida s (Ret u) s' → caracter_actual s' = None.
Proof.
  intros Hrun. remember (Ret u) as o eqn:Eo.
  induction Hrun; simplify_eq; auto.
Qed.

Lemma analizar_bucle_fuel n s :
  restante s ≤ n → analizar_bucle n s = analizar_bucle (restante s) s.
Proof.
  intros Hn.
  pose proof (analizar_bucle_corrida n s Hn) as H1.
  pose proof (analizar_bucle_corrida (restante s) s (le_n _)) as H2.
  destruct (Corrida_det _ _ _ _ _ H1 H2) as [E1 E2].
  destruct (analizar_bucle n s), (analizar_bucle (restante s) s).
  simpl in *. by subst.
Qed.

Lemma Corrida_espacios s :
  Forall (λ c, isspace c = true) (resto s) →
  ∃ s', Corrida s (Ret tt) s' ∧ tokens s' = tokens s.
Proof.
  intros Hsp. destruct (resto s) as [|c r] eqn:Er.
  - exists s. split; [|done]. constructor. by rewrite caracter_actual_resto, Er.
  - assert (Hc : caracter_actual s = Some c) by (by rewrite caracter_actual_resto, Er).
    assert (Hp : prefijo isspace (resto s) = c :: r).
    { rewrite Er. rewrite <- (app_nil_r (c :: r)) at 1. by apply prefijo_app. }
    assert (Hr : resto s = (c :: r) ++ []) by (by rewrite app_nil_r).
    exists (avanzar_n (length (c :: r)) s). split.
    + eapply corrida_paso; [done | |].
      * unfold despachar. apply Forall_cons in Hsp as [-> _].
        by rewrite saltar_espacios_eq, Hp.
      * constructor. by rewrite caracter_actual_resto, (resto_avanzar_n _ _ _ Hr).
    + by rewrite (tokens_avanzar_n _ _ _ Hr).
Qed.

(** C8. Scanning terminates: the model of [analizar] never runs out of
    the fuel its definition gives it (and more fuel changes nothing);
    every iteration of the dispatch loop moves the cursor forward by at
    least one character or raises the lexical error on the spot; a
    successful scan stops at end of input and returns the accumulated
    tokens, none for an empty or all-whitespace text. *)
Theorem C8_analizar_termina (t : list N) :
  (analizar (init t)).1 ≠ OutOfFuel ∧
  (∀ n, length t ≤ n →
     analizar_bucle n (init t) = analizar_bucle (length t) (init t)) ∧
  (∀ s c, caracter_actual s = Some c →
     (despachar c s).1 ≠ OutOfFuel ∧
     (pos s < pos (despachar c s).2 ∨
      despachar c s = (Raise (CaracterNoValido c (linea s) (columna s)), s))) ∧
  (∀ toks s', analizar (init t) = (Ret toks, s') →
     caracter_actual s' = None ∧ toks = tokens s') ∧
  (Forall (λ c, isspace c = true) t → (analizar (init t)).1 = Ret []).
Proof.
  split_and!.
  - destruct (analizar (init t)) as [r s'] eqn:E.
    apply analizar_inv in E as (o & Hrun & ->). simpl.
    apply Corrida_fuel in Hrun. by destruct o.
  - intros n Hn. rewrite (analizar_bucle_fuel n); [|unfold restante; simpl; lia].
    f_equal. unfold restante. simpl. lia.
  - intros s c Hc. pose proof (despachar_paso s c Hc) as HP.
    apply Paso_progreso in HP as (Hf & _ & [[Hp _]|[Ho Hs]]); split; auto.
    right. destruct (despachar c s); simpl in *. by subst.
  - intros toks s' E. apply analizar_inv in E as (o & Hrun & Hr).
    symmetry in Hr. apply resultado_ret in Hr as [-> ->].
    split; [by eapply Corrida_ret_fin | done].
  - intros Hsp.
    destruct (Corrida_espacios (reiniciar (init t))) as (s' & Hrun & Htok).
    { unfold resto. simpl. by rewrite drop_0. }
    apply analizar_de_corrida in Hrun. rewrite Hrun. simpl. by rewrite Htok.
Qed.

End Terminacion.

(** ** Positions of the tokens *)

Section Tokens.
Context `{Host}.

Lemma analizar_invariante t r s' :
  analizar (init t) = (r, s') → invariante s' ∧ texto s' = t.
Proof.
  intros (o & Hrun & _)%analizar_inv.
  apply Corrida_invariante in Hrun; [done|].
  apply invariante_reiniciar, coherente_init.
Qed.

Lemma en_inicio_lt t i tok : en_inicio t i tok → i < length t.
Proof.
  intros (lit & Hne & [r Hpre] & _).
  destruct (decide (i < length t)) as [|Hge]; [done|].
  rewrite drop_ge in Hpre by lia. by destruct lit.
Qed.

Lemma StronglySorted_lookup_lt (l : list nat) i j a b :
  StronglySorted lt l → i < j → l !! i = Some a → l !! j = Some b → a < b.
Proof.
  intros Hs. revert i j. induction Hs as [|x l Hs IH Hall]; intros i j Hij Hi Hj.
  - done.
  - destruct j as [|j]; [lia|]. destruct i as [|i]; simplify_eq/=.
    + eapply Forall_lookup_1 in Hall; eauto.
    + eapply IH; [|done..]. lia.
Qed.

(** C6. On a successful scan, of two consecutive tokens of the returned
    sequence the second starts strictly after the first in document
    order: on a later line, or on the same line at a greater column. *)
Theorem C6_posiciones_crecientes t toks s' i T1 T2 :
  analizar (init t) = (Ret toks, s') →
  toks !! i = Some T1 → toks !! S i = Some T2 →
  antes (tok_linea T1, tok_columna T1) (tok_linea T2, tok_columna T2).
Proof.
  intros E H1 H2.
  pose proof (analizar_invariante _ _ _ E) as [[_ (offs & Htok & Hsort & _)] Ht].
  apply analizar_inv in E as (o & _ & Hr).
  symmetry in Hr. apply resultado_ret in Hr as [_ ->]. rewrite Ht in Htok.
  destruct (Forall2_lookup_r _ _ _ _ _ Htok H1) as (a & Ha & Ha').
  destruct (Forall2_lookup_r _ _ _ _ _ Htok H2) as (b & Hb & Hb').
  assert (a < b) by (eapply (StronglySorted_lookup_lt offs i (S i)); eauto).
  pose proof (en_inicio_lt _ _ _ Hb') as Hblt.
  destruct Ha' as (_ & _ & _ & _ & -> & ->), Hb' as (_ & _ & _ & _ & -> & ->).
  rewrite <- !lincol_eq. apply lincol_mono; lia.
Qed.

End Tokens.

(** The scan of "ab 12", newline, " x" returns three tokens, of which the
    second and the third are consecutive. *)
Lemma C6_posiciones_crecientes_witness :
  let t := py "ab 12" ++ [salto_de_linea] ++ py " x" in
  let toks := [mkToken ID (VStr (py "ab")) 1 1; mkToken ENTERO (VInt 12) 1 4;
               mkToken ID (VStr (py "x")) 2 2] in
  (analizar (init t)).1 = Ret toks ∧ antes (1, 4) (2, 2).
Proof.
  intros t toks. split; [vm_compute; reflexivity|].
  apply (C6_posiciones_crecientes (H := latin1) t toks (analizar (init t)).2 1
           (mkToken ENTERO (VInt 12) 1 4) (mkToken ID (VStr (py "x")) 2 2));
    vm_compute; reflexivity.
Defined.

(** ** A second call on the same instance *)

Section SegundaLlamada.
Context `{Host}.

(** C9. When a first call of [analizar] on a fresh instance succeeds, the
    cursor is left at the end of the text, and a second call on the same
    instance returns the empty sequence: it resets [tokens] and nothing
    else, so its loop does not run. *)
Theorem C9_segunda_llamada_vacia t toks s1 :
  analizar (init t) = (Ret toks, s1) →
  caracter_actual s1 = None ∧
  analizar s1 = (Ret [], reiniciar s1) ∧
  pos (reiniciar s1) = pos s1 ∧ linea (reiniciar s1) = linea s1 ∧
  columna (reiniciar s1) = columna s1.
Proof.
  intros (o & Hrun & Hr)%analizar_inv.
  symmetry in Hr. apply resultado_ret in Hr as [-> _].
  apply Corrida_ret_fin in Hrun. split_and!; try done.
  eapply analizar_ret; [|done]. by constructor.
Qed.

End SegundaLlamada.

(** The scan of "ab 12" succeeds; scanning the same instance again
    returns no token. *)
Lemma C9_segunda_llamada_vacia_witness :
  let s1 := (analizar (init (py "ab 12"))).2 in
  (analizar (init (py "ab 12"))).1 =
    Ret [mkToken ID (VStr (py "ab")) 1 1; mkToken ENTERO (VInt 12) 1 4] ∧
  caracter_actual s1 = None ∧
  analizar s1 = (Ret [], reiniciar s1) ∧
  pos (reiniciar s1) = pos s1 ∧ linea (reiniciar s1) = linea s1 ∧
  columna (reiniciar s1) = columna s1.
Proof.
  intros s1. split; [vm_compute; reflexivity|].
  apply (C9_segunda_llamada_vacia (H := latin1) (py "ab 12")
           [mkToken ID (VStr (py "ab")) 1 1; mkToken ENTERO (VInt 12) 1 4] s1).
  vm_compute; reflexivity.
Defined.

(** ** Integer values *)

Section Enteros.
Context `{Host}.

Lemma fold_posicional ds (acc : Z) :
  fold_left (λ acc d, 10 * acc + Z.of_nat d)%Z ds acc =
    (acc * 10 ^ Z.of_nat (length ds) + valor_posicional ds)%Z.
Proof.
  revert acc. induction ds as [|d ds IH]; intros acc; simpl fold_left.
  - simpl. lia.
  - rewrite IH. simpl length. simpl valor_posicional.
    rewrite Nat2Z.inj_succ, Z.pow_succ_r by lia. ring.
Qed.

(** The accumulation of [int] computes the positional value. *)
Lemma valor_decimal_posicional ds : valor_decimal ds = valor_posicional ds.
Proof. unfold valor_decimal. rewrite fold_posicional. lia. Qed.

Lemma int_Some lit z :
  int_ lit = Some z →
  ∃ ds, mapM decimal lit = Some ds ∧ z = valor_posicional ds ∧ lit ≠ [] ∧
        (int_max_str_digits = 0 ∨ length lit ≤ int_max_str_digits).
Proof.
  unfold int_. destruct (mapM decimal lit) as [ds|]; simpl; [|done].
  repeat case_bool_decide; intros; simplify_eq.
  exists ds. rewrite valor_decimal_posicional. split_and!; try done. lia.
Qed.

Lemma int_Some_2 lit ds :
  mapM decimal lit = Some ds → lit ≠ [] →
  int_max_str_digits = 0 ∨ length lit ≤ int_max_str_digits →
  int_ lit = Some (valor_posicional ds).
Proof.
  intros Hds Hne Hlim. unfold int_. rewrite Hds. simpl.
  rewrite bool_decide_eq_false_2 by done.
  rewrite bool_decide_eq_false_2 by lia.
  by rewrite valor_decimal_posicional.
Qed.

Lemma mapM_decimal_isdigit (lit : list N) ds :
  mapM decimal lit = Some ds →
  Forall (λ c, isdigit c = true) lit ∧ Forall (λ d, d < 10) ds ∧
  length ds = length lit.
Proof.
  intros Hm%mapM_Some. induction Hm as [|c d lit ds Hc _ IH]; [done|].
  apply host_decimal_isdigit in Hc as [? ?]. destruct IH as (? & ? & ?).
  split_and!; try constructor; simpl; auto.
Qed.

(** [int] refuses a string longer than the limit, whatever it holds. *)
Lemma int_limite (lit : list N) :
  0 < int_max_str_digits < length lit → int_ lit = None.
Proof.
  intros Hlim. unfold int_. destruct (mapM decimal lit) as [ds|]; simpl; [|done].
  case_bool_decide; [done|]. rewrite bool_decide_eq_true_2; [done | lia].
Qed.


(** C10 (amended).  Whenever [leer_numero] emits an integer token, every
    character of the run it read is a decimal digit and the value of the
    token is exactly the integer the digits denote in positional
    notation, with no bound on it.  A run of decimal digits, not followed
    by a fractional part, is emitted as that integer when its length is
    within the host's limit on conversions to [int] (4300 digits unless
    the host is configured otherwise; any length at all when the limit is
    off); a longer run is refused: [leer_numero] consumes it and raises
    [ValueError], and no token is emitted. *)
Theorem C10_entero_exacto :
  (∀ s tok s',
     leer_numero s = (Ret tok, s') → tipo tok = ENTERO →
     ∃ ds, mapM decimal (prefijo isdigit (resto s)) = Some ds ∧
           Forall (λ d, d < 10) ds ∧
           length ds = length (prefijo isdigit (resto s)) ∧
           valor tok = VInt (valor_posicional ds)) ∧
  (∀ s lit r ds,
     resto s = lit ++ r → lit ≠ [] → mapM decimal lit = Some ds →
     cumple isdigit (head r) = false →
     es punto (head r) && cumple isdigit (r !! 1) = false →
     (int_max_str_digits = 0 ∨ length lit ≤ int_max_str_digits →
      leer_numero s =
        (Ret (mkToken ENTERO (VInt (valor_posicional ds)) (linea s) (columna s)),
         avanzar_n (length lit) s)) ∧
     (0 < int_max_str_digits < length lit →
      leer_numero s = (Raise (ValueError lit), avanzar_n (length lit) s))).
Proof.
  split.
  - intros s tok s'. rewrite leer_numero_eq. simpl.
    destruct (es punto _ && cumple isdigit _).
    + unfold emitir. destruct (float_ _); intros; simplify_eq/=.
    + unfold emitir. destruct (int_ _) as [z|] eqn:Ez; intros; simplify_eq/=.
      apply int_Some in Ez as (ds & Hds & -> & _).
      exists ds. apply mapM_decimal_isdigit in Hds as Hd.
      destruct Hd as (_ & ? & ?). done.
  - intros s lit r ds Hr Hne Hds Hhead Hdot.
    assert (Hp : prefijo isdigit (resto s) = lit).
    { rewrite Hr. apply prefijo_app; [|done].
      by apply mapM_decimal_isdigit in Hds as (? & _). }
    split; intros Hlim; rewrite leer_numero_eq; simpl;
      rewrite Hp, Hr, drop_app_length, Hdot; unfold emitir.
    + by rewrite (int_Some_2 _ _ Hds Hne Hlim).
    + by rewrite (int_limite _ Hlim).
Qed.

End Enteros.

(** A run of forty nines, beyond any machine word, read by [leer_numero]. *)
Lemma C10_entero_exacto_witness :
  let s := init (replicate 40 57%N) in
  leer_numero s =
    (Ret (mkToken ENTERO (VInt (10 ^ 40 - 1)) 1 1), avanzar_n 40 s) ∧
  ∃ ds, mapM decimal (prefijo isdigit (resto s)) = Some ds ∧
        Forall (λ d, d < 10) ds ∧
        length ds = length (prefijo isdigit (resto s)) ∧
        VInt (10 ^ 40 - 1) = VInt (valor_posicional ds).
Proof.
  intros s. split.
  - change (10 ^ 40 - 1)%Z with (valor_posicional (replicate 40 9)).
    apply (proj1 (proj2 (C10_entero_exacto (H := latin1)) s (replicate 40 57%N) []
             (replicate 40 9) eq_refl ltac:(done) eq_refl eq_refl eq_refl)).
    right. apply Nat.leb_le. vm_compute; reflexivity.
  - apply (proj1 (C10_entero_exacto (H := latin1)) s
             (mkToken ENTERO (VInt (10 ^ 40 - 1)) 1 1) (avanzar_n 40 s));
      vm_compute; reflexivity.
Defined.

(** The integer 10^4300 is written with 4301 digits, one more than
    CPython's default limit admits: [leer_numero] consumes the run and
    raises [ValueError]; the scan emits no token for it. *)
Lemma C10_contraejemplo :
  let t := 49%N :: replicate 4300 48%N in
  mapM decimal t = Some (1 :: replicate 4300 0) ∧
  (leer_numero (init t)).1 = Raise (ValueError t) ∧
  (∀ tok, (leer_numero (init t)).1 ≠ Ret tok) ∧
  tokens (analizar (init t)).2 = [].
Proof.
  intros t.
  assert (Hr : (leer_numero (init t)).1 = Raise (ValueError t))
    by (vm_compute; reflexivity).
  split_and!; [vm_compute; reflexivity | done | by rewrite Hr |
               vm_compute; reflexivity].
Qed.

(** ** The dot that is not part of a number *)

Section PuntoFinal.
Context `{Host}.







End PuntoFinal.


(** ** The lexical error *)

Section ErrorLexico.
Context `{Host}.


Lemma Corrida_lanza_inv s e s' :
  Corrida s (Raise e) s' →
  ∃ s1 c, alcanza s s1 ∧ caracter_actual s1 = Some c ∧
          despachar c s1 = (Raise e, s').
Proof.
  intros Hrun. remember (Raise e) as o eqn:Eo.
  induction Hrun as [s Hc|s c e' s' Hc Hd|s c s2 o s' Hc Hd _ IH]; simplify_eq.
  - exists s, c. split; [apply rtc_refl | done].
  - destruct (IH eq_refl) as (s1 & c1 & Hreach & ?).
    exists s1, c1. split; [|done]. eapply rtc_l; [|done]. by exists c.
Qed.

Lemma alcanza_invariante s s1 :
  alcanza s s1 → invariante s → invariante s1 ∧ texto s1 = texto s.
Proof.
  induction 1 as [s|s s2 s1 (c & Hc & Hd) _ IH]; intros Hinv; [done|].
  apply despachar_inv in Hd; [|done].
  destruct IH as [? ->]; eauto using Paso_invariante, Paso_texto.
Qed.


Lemma Forall_ascii_forallb (lit : list N) :
  Forall (λ c, es_ascii c = true) lit → Forall (λ c, isdigit c = true) lit →
  forallb ascii_isdigit lit = true.
Proof.
  intros Ha Hd. apply forallb_forall. intros c Hc%list_elem_of_In.
  rewrite Forall_forall in Ha, Hd.
  rewrite <- host_ascii_isdigit by auto. auto.
Qed.




Lemma despachar_error s c :
  isspace c = false → isdigit c = false →
  isalpha c || bool_decide (c = guion_bajo) = false →
  despachar c s = (Raise (CaracterNoValido c (linea s) (columna s)), s).
Proof. intros Hs Hd Ha. unfold despachar. by rewrite Hs, Hd, Ha. Qed.

End ErrorLexico.

(** ** Reading numbers *)

Section Numeros.
Context `{Host}.

Lemma ascii_isdigit_host c :
  ascii_isdigit c = true →
  es_ascii c = true ∧ isdigit c = true ∧ isspace c = false ∧ c ≠ punto.
Proof.
  intros Hc. assert (Ha : es_ascii c = true) by casos_N.
  rewrite host_ascii_isdigit, host_ascii_isspace by done.
  split_and!; try done; casos_N.
Qed.


Lemma digitos_host ds :
  digitos ds →
  Forall (λ c, isdigit c = true) ds ∧ Forall (λ c, es_ascii c = true) ds ∧
  ∃ c ds', ds = c :: ds' ∧ ascii_isdigit c = true.
Proof.
  intros [Hne Hds]. split_and!.
  - eapply Forall_impl; [done|]. intros c Hc. by apply ascii_isdigit_host in Hc as (_ & ? & _).
  - eapply Forall_impl; [done|]. intros c Hc. by apply ascii_isdigit_host in Hc as (? & _).
  - destruct ds as [|c ds']; [done|]. apply Forall_cons in Hds as [? _]. eauto.
Qed.

(** [leer_numero] on a maximal run of digits [ds], by what follows it. *)
Lemma leer_numero_partes s ds r :
  resto s = ds ++ r → Forall (λ c, isdigit c = true) ds →
  cumple isdigit (head r) = false →
  (∀ fs r', r = punto :: fs ++ r' → fs ≠ [] →
     Forall (λ c, isdigit c = true) fs → cumple isdigit (head r') = false →
     leer_numero s =
       (emitir (ds ++ punto :: fs) (float_ (ds ++ punto :: fs))
          (λ x, mkToken REAL (VFloat x) (linea s) (columna s)),
        avanzar_n (length (ds ++ punto :: fs)) s) ∧
     resto (leer_numero s).2 = r') ∧
  (es punto (head r) && cumple isdigit (r !! 1) = false →
     leer_numero s =
       (emitir ds (int_ ds) (λ z, mkToken ENTERO (VInt z) (linea s) (columna s)),
        avanzar_n (length ds) s) ∧
     resto (leer_numero s).2 = r).
Proof.
  intros Hr Hds Hhead.
  assert (Hp : prefijo isdigit (resto s) = ds) by (rewrite Hr; by apply prefijo_app).
  split.
  - intros fs r' -> Hne Hfs Hhead'.
    assert (Hlit : resto s = (ds ++ punto :: fs) ++ r').
    { rewrite Hr, <- app_assoc. done. }
    assert (E : leer_numero s =
       (emitir (ds ++ punto :: fs) (float_ (ds ++ punto :: fs))
          (λ x, mkToken REAL (VFloat x) (linea s) (columna s)),
        avanzar_n (length (ds ++ punto :: fs)) s)).
    { rewrite leer_numero_eq. simpl. rewrite Hp, Hr, drop_app_length. simpl.
      destruct fs as [|d fs]; [done|]. apply Forall_cons in Hfs as [Hd Hfs].
      replace (cumple isdigit (((d :: fs) ++ r') !! 0)) with true
        by (simpl; by rewrite Hd).
      rewrite drop_0.
      rewrite (prefijo_app isdigit (d :: fs) r'); [|by constructor|done].
      do 2 f_equal. rewrite length_app. simpl. lia. }
    split; [done|]. rewrite E. simpl. by apply resto_avanzar_n.
  - intros Hdot.
    assert (E : leer_numero s =
       (emitir ds (int_ ds) (λ z, mkToken ENTERO (VInt z) (linea s) (columna s)),
        avanzar_n (length ds) s)).
    { rewrite leer_numero_eq. simpl. by rewrite Hp, Hr, drop_app_length, Hdot. }
    split; [done|]. rewrite E. simpl. by apply resto_avanzar_n.
Qed.





End Numeros.

Section NumerosClaim.
Context `{Host}.

Lemma forallb_real (ds fs : list N) :
  digitos ds → digitos fs →
  forallb (λ c, ascii_isdigit c || bool_decide (c = punto)) (ds ++ punto :: fs) = true.
Proof.
  intros [_ Hds] [_ Hfs]. rewrite Forall_forall in Hds, Hfs.
  apply forallb_forall. intros c [Hc|[<-|Hc]]%in_app_or.
  - rewrite Hds; [done|]. by apply list_elem_of_In.
  - by rewrite bool_decide_eq_true_2, orb_true_r.
  - rewrite Hfs; [done|]. by apply list_elem_of_In.
Qed.


End NumerosClaim.

(** ** Runs on concrete texts, with the Latin-1 host *)




(** C3. The claim fails on the code: the letter n with tilde is a letter
    for [str.isalpha], so the scan of it returns an identifier that the
    pattern [A-Za-z_][A-Za-z0-9_]* of the docstring rejects. *)
Lemma C3_identificador_no_ascii :
  (analizar (init [241%N])).1 = Ret [mkToken ID (VStr [241%N]) 1 1] ∧
  es_identificador [241%N] = false.
Proof. split; reflexivity. Qed.

(** * Further properties of the scanner *)

(** ** The cursor and its bounds *)

Section Cursor.
Context `{Host}.

Lemma avanzar_cota s :
  pos s ≤ length (texto s) →
  texto (avanzar s) = texto s ∧ pos s ≤ pos (avanzar s) ∧
  pos (avanzar s) ≤ length (texto s).
Proof.
  intros Hs. unfold avanzar. destruct (texto s !! pos s) as [c|] eqn:E.
  - apply lookup_lt_Some in E. case_bool_decide; simpl; split_and!; done || lia.
  - split_and!; done || lia.
Qed.

Lemma avanzar_n_cota k s :
  pos s ≤ length (texto s) →
  texto (avanzar_n k s) = texto s ∧ pos s ≤ pos (avanzar_n k s) ∧
  pos (avanzar_n k s) ≤ length (texto s).
Proof.
  revert s. induction k as [|k IH]; intros s Hs; simpl; [split_and!; done || lia|].
  destruct (avanzar_cota s Hs) as (Ht & ? & ?).
  destruct (IH (avanzar s)) as (-> & ? & ?); [by rewrite Ht|].
  rewrite Ht in *. split_and!; done || lia.
Qed.

Lemma Paso_cota s c o s' :
  Paso s c o s' → pos s ≤ length (texto s) →
  texto s' = texto s ∧ pos s ≤ pos s' ∧ pos s' ≤ length (texto s).
Proof.
  destruct 1; intros Hs; unfold con_token; simpl;
    first [by apply avanzar_n_cota | split_and!; done || lia].
Qed.

Lemma Corrida_cota s o s' :
  Corrida s o s' → pos s ≤ length (texto s) →
  texto s' = texto s ∧ pos s ≤ pos s' ∧ pos s' ≤ length (texto s).
Proof.
  induction 1 as [s Hc|s c e s' Hc Hd|s c s1 o s' Hc Hd _ IH]; intros Hs.
  - split_and!; done || lia.
  - apply despachar_inv in Hd; [|done]. by eapply Paso_cota.
  - apply despachar_inv in Hd; [|done].
    destruct (Paso_cota _ _ _ _ Hd Hs) as (Ht & ? & ?).
    destruct IH as (-> & ? & ?); [by rewrite Ht|]. rewrite Ht in *.
    split_and!; done || lia.
Qed.

(** X1. No method changes the text or moves the cursor backwards or past
    the end of the text: this holds of [avanzar], [saltar_espacios],
    [leer_numero], [leer_identificador] and [analizar], whether they
    return or raise. *)
Theorem X1_cursor_acotado s :
  pos s ≤ length (texto s) →
  Forall (λ s', texto s' = texto s ∧ pos s ≤ pos s' ∧ pos s' ≤ length (texto s))
    [avanzar s; (saltar_espacios s).2; (leer_numero s).2;
     (leer_identificador s).2; (analizar s).2].
Proof.
  intros Hs. repeat apply Forall_cons_2; [| | | | |constructor].
  - by apply avanzar_cota.
  - rewrite saltar_espacios_eq. by apply avanzar_n_cota.
  - rewrite leer_numero_eq. simpl.
    destruct (es punto _ && cumple isdigit _); by apply avanzar_n_cota.
  - rewrite leer_identificador_eq. by apply avanzar_n_cota.
  - destruct (analizar s) as [r s'] eqn:E.
    apply analizar_inv in E as (o & Hrun & _).
    by apply Corrida_cota in Hrun.
Qed.

(** X2. [peek] always returns what [caracter_actual] returns after one
    [avanzar]; [caracter_actual] returns None exactly when the cursor is
    at or beyond the end of the text, and then [avanzar] changes nothing
    and [peek] returns None too. *)
Theorem X2_peek_y_fin s :
  peek s = caracter_actual (avanzar s) ∧
  (caracter_actual s = None ↔ length (texto s) ≤ pos s) ∧
  (caracter_actual s = None → avanzar s = s ∧ peek s = None).
Proof.
  assert (Hend : caracter_actual s = None → avanzar s = s ∧ peek s = None).
  { unfold caracter_actual, avanzar, peek. intros E. rewrite E. split; [done|].
    apply lookup_ge_None in E. apply lookup_ge_None. lia. }
  split_and!; [|apply lookup_ge_None|done].
  destruct (caracter_actual s) as [c|] eqn:E.
  - unfold caracter_actual in E. unfold peek, caracter_actual, avanzar.
    rewrite E. by case_bool_decide.
  - destruct (Hend eq_refl) as [-> ->]. done.
Qed.

End Cursor.

(** The cursor of a scanner of "ab 1" stays within the four characters. *)
Lemma X1_cursor_acotado_witness :
  let s := init (py "ab 1") in
  Forall (λ s', texto s' = texto s ∧ pos s ≤ pos s' ∧ pos s' ≤ length (texto s))
    [avanzar s; (saltar_espacios s).2; (leer_numero s).2;
     (leer_identificador s).2; (analizar s).2].
Proof.
  intros s. apply (X1_cursor_acotado (H := latin1) s). vm_compute. lia.
Defined.

(** ** The readers, one by one *)

Section Lectores2.
Context `{Host}.

Lemma prefijo_nil p (l : list N) : cumple p (head l) = false → prefijo p l = [].
Proof. destruct l as [|c l]; simpl; [done|]. by intros ->. Qed.

Lemma prefijo_nil_inv p (l : list N) : prefijo p l = [] → cumple p (head l) = false.
Proof. destruct l as [|c l]; simpl; [done|]. by destruct (p c). Qed.

(** X3. [saltar_espacios] always returns; what it consumes is whitespace
    only, it stops at the first character that is not whitespace (or at
    the end), it leaves the tokens alone, and calling it again right
    after consumes nothing more. *)
Theorem X3_saltar_espacios s :
  (saltar_espacios s).1 = Ret tt ∧
  (∃ ws, resto s = ws ++ resto (saltar_espacios s).2 ∧ blancos ws ∧
         pos (saltar_espacios s).2 = pos s + length ws) ∧
  cumple isspace (caracter_actual (saltar_espacios s).2) = false ∧
  tokens (saltar_espacios s).2 = tokens s ∧
  saltar_espacios (saltar_espacios s).2 = (Ret tt, (saltar_espacios s).2).
Proof.
  rewrite saltar_espacios_eq. simpl.
  set (ws := prefijo isspace (resto s)).
  pose proof (prefijo_split isspace (resto s)) as Hsplit. fold ws in Hsplit.
  pose proof (resto_avanzar_n _ _ _ Hsplit) as Hr.
  pose proof (prefijo_stop isspace (resto s)) as Hstop. fold ws in Hstop.
  split_and!.
  - done.
  - exists ws. rewrite Hr. split_and!; [done | apply prefijo_Forall |].
    by apply pos_avanzar_n in Hsplit.
  - by rewrite caracter_actual_resto, Hr.
  - by apply tokens_avanzar_n in Hsplit.
  - rewrite saltar_espacios_eq, Hr. by rewrite prefijo_nil.
Qed.

(** X4. [leer_identificador] never raises and does not check where it
    starts: it returns an ID token whose value is exactly the characters
    it consumed, the longest run of alphanumeric characters and
    underscores at the cursor, stamped with the line and column it
    started at.  Called where no such character stands (also at the end
    of the text) it returns an identifier with the empty string as value
    and does not move. *)
Theorem X4_leer_identificador s :
  ∃ lex,
    (leer_identificador s).1 = Ret (mkToken ID (VStr lex) (linea s) (columna s)) ∧
    resto s = lex ++ resto (leer_identificador s).2 ∧
    pos (leer_identificador s).2 = pos s + length lex ∧
    Forall (λ c, alfanumerico c = true) lex ∧
    cumple alfanumerico (caracter_actual (leer_identificador s).2) = false ∧
    (cumple alfanumerico (caracter_actual s) = false ↔ lex = []) ∧
    (lex = [] → (leer_identificador s).2 = s).
Proof.
  rewrite leer_identificador_eq. simpl.
  fold alfanumerico. change (λ c, alfanumerico c) with alfanumerico.
  set (lex := prefijo alfanumerico (resto s)). exists lex.
  pose proof (prefijo_split alfanumerico (resto s)) as Hsplit. fold lex in Hsplit.
  pose proof (resto_avanzar_n _ _ _ Hsplit) as Hr.
  split_and!.
  - done.
  - by rewrite Hr.
  - by apply pos_avanzar_n in Hsplit.
  - apply prefijo_Forall.
  - rewrite caracter_actual_resto, Hr. apply prefijo_stop.
  - rewrite caracter_actual_resto. split; [apply prefijo_nil | apply prefijo_nil_inv].
  - by intros ->.
Qed.

(** X5. [leer_numero] called where no digit stands: if a dot followed by a
    digit stands there, it reads the dot and the digits after it as a
    real number with an empty integer part; otherwise it consumes
    nothing and raises the [ValueError] of [int] on the empty string. *)
Theorem X5_leer_numero_sin_digitos s :
  cumple isdigit (caracter_actual s) = false →
  (es punto (caracter_actual s) && cumple isdigit (peek s) = false →
     leer_numero s = (Raise (ValueError []), s)) ∧
  (∀ fs r', resto s = punto :: fs ++ r' → fs ≠ [] →
     Forall (λ c, isdigit c = true) fs → cumple isdigit (head r') = false →
     leer_numero s =
       (emitir (punto :: fs) (float_ (punto :: fs))
          (λ x, mkToken REAL (VFloat x) (linea s) (columna s)),
        avanzar_n (length (punto :: fs)) s)).
Proof.
  rewrite caracter_actual_resto, peek_resto. intros Hhead.
  destruct (leer_numero_partes s [] (resto s) eq_refl ltac:(constructor) Hhead)
    as [Hreal Hint].
  split.
  - intros Hdot. destruct (Hint Hdot) as [-> _]. done.
  - intros fs r' Hr Hne Hfs Hr'. by destruct (Hreal fs r' Hr Hne Hfs Hr') as [-> _].
Qed.

End Lectores2.

(** [leer_numero] at the start of "x1": nothing is consumed. *)
Lemma X5_leer_numero_sin_digitos_witness :
  leer_numero (init (py "x1")) = (Raise (ValueError []), init (py "x1")).
Proof.
  apply (proj1 (X5_leer_numero_sin_digitos (H := latin1) (init (py "x1")) eq_refl)).
  reflexivity.
Defined.

(** * The text as the scan cuts it *)

(** ** Whitespace and literals, nothing else *)

Section Particion.
Context `{Host}.

Lemma take_resto s run r :
  resto s = run ++ r →
  take (pos s + length run) (texto s) = take (pos s) (texto s) ++ run.
Proof.
  intros Hr. rewrite <- take_take_drop. fold (resto s).
  by rewrite Hr, take_app_length.
Qed.

Lemma aplanar_snoc trs tr : aplanar (trs ++ [tr]) = aplanar trs ++ texto_de_trozo tr.
Proof. unfold aplanar. rewrite fmap_app, concat_app. simpl. by rewrite app_nil_r. Qed.

Lemma tokens_de_blanco trs ws : tokens_de (trs ++ [Blanco ws]) = tokens_de trs.
Proof. unfold tokens_de. rewrite omap_app. simpl. by rewrite app_nil_r. Qed.

Lemma tokens_de_lexema trs tok lit :
  tokens_de (trs ++ [Lexema tok lit]) = tokens_de trs ++ [tok].
Proof. unfold tokens_de. by rewrite omap_app. Qed.

Lemma head_resto s c (lit r : list N) :
  caracter_actual s = Some c → resto s = lit ++ r → lit ≠ [] → head lit = Some c.
Proof.
  rewrite caracter_actual_resto. intros Hc Hr Hne. rewrite Hr in Hc.
  by destruct lit.
Qed.

Lemma particion_init t : particion (init t).
Proof. exists []. simpl. by rewrite take_0. Qed.

Lemma particion_lexema s c lit r tok :
  particion s → resto s = lit ++ r → lectura c lit tok →
  particion (con_token tok (avanzar_n (length lit) s)).
Proof.
  intros (trs & Hap & Htok & Hval) Hr Hlec.
  exists (trs ++ [Lexema tok lit]). unfold con_token.
  rewrite (avanzar_n_app _ _ _ Hr). simpl.
  rewrite aplanar_snoc, tokens_de_lexema, (take_resto _ _ _ Hr), Hap, Htok.
  split_and!; [done..|]. apply Forall_app. split; [done|].
  constructor; [|constructor]. by exists c.
Qed.

(** A completed iteration keeps the text before the cursor cut up. *)
Lemma Paso_particion s c s' :
  caracter_actual s = Some c → Paso s c (Ret tt) s' → particion s → particion s'.
Proof.
  intros Hc HP Hpart.
  inversion HP as [run r Hsp Hr Hne Hrun|lit r tok Hsp Hdig Hr Hne Hforma Hlex Hl Hk
                  | |lit r Hsp Hdig Hal Hr Hne Hlit|]; subst.
  - destruct Hpart as (trs & Hap & Htok & Hval).
    set (run := prefijo isspace (resto s)) in *.
    exists (trs ++ [Blanco run]). rewrite (avanzar_n_app _ _ _ Hr). simpl.
    rewrite aplanar_snoc, tokens_de_blanco, (take_resto _ _ _ Hr), Hap.
    split_and!; [done..|]. apply Forall_app. split; [done|].
    constructor; [|constructor]. split; [done|]. apply prefijo_Forall.
  - eapply particion_lexema; [done..|].
    split_and!; [by eapply head_resto | done |].
    destruct Hforma as [[-> ?]|[-> ?]]; done.
  - eapply particion_lexema; [done..|].
    split_and!; [by eapply head_resto | done |]. simpl.
    split_and!; [done..|]. apply prefijo_Forall.
Qed.

Lemma alcanza_particion s s1 : alcanza s s1 → particion s → particion s1.
Proof.
  induction 1 as [s|s s2 s1 (c & Hc & Hd) _ IH]; intros Hpart; [done|].
  apply despachar_inv in Hd; [|done]. eauto using Paso_particion.
Qed.

Lemma Corrida_ret_alcanza s u s' : Corrida s (Ret u) s' → alcanza s s'.
Proof.
  intros Hrun. remember (Ret u) as o eqn:Eo.
  induction Hrun as [s Hc|s c e s' Hc Hd|s c s2 o s' Hc Hd _ IH]; simplify_eq.
  - apply rtc_refl.
  - eapply rtc_l; [|by apply IH]. by exists c.
Qed.

(** Where a scan ends, by its outcome: at a head of the loop, or one
    refused literal after it. *)
Lemma analizar_final t r s' :
  analizar (init t) = (r, s') →
  ∃ s1, alcanza (init t) s1 ∧ particion s1 ∧ texto s1 = t ∧
        tokens s' = tokens s1 ∧
        match r with
        | Ret toks => s' = s1 ∧ toks = tokens s1 ∧ caracter_actual s1 = None
        | Raise (CaracterNoValido c l k) =>
            s' = s1 ∧ caracter_actual s1 = Some c ∧ isspace c = false ∧
            isdigit c = false ∧ isalpha c || bool_decide (c = guion_bajo) = false
        | Raise (ValueError lit) => ∃ r', resto s1 = lit ++ r' ∧ lit ≠ []
        | OutOfFuel => False
        end.
Proof.
  intros (o & Hrun & ->)%analizar_inv.
  change (reiniciar (init t)) with (init t) in Hrun.
  destruct o as [[]|e|]; simpl.
  - pose proof (Corrida_ret_fin _ _ _ Hrun) as Hfin.
    apply Corrida_ret_alcanza in Hrun. exists s'.
    pose proof (alcanza_invariante _ _ Hrun
      (invariante_reiniciar (init t) (coherente_init t))) as [_ Ht].
    split_and!; try done. eapply alcanza_particion; [done|apply particion_init].
  - apply Corrida_lanza_inv in Hrun as (s1 & c & Hreach & Hc & Hd).
    pose proof (alcanza_invariante _ _ Hreach
      (invariante_reiniciar (init t) (coherente_init t))) as [_ Ht].
    pose proof (alcanza_particion _ _ Hreach (particion_init t)) as Hpart.
    apply despachar_inv in Hd; [|done]. exists s1.
    inversion Hd as [| |lit r ? ? Hr Hne _| |]; subst.
    + split_and!; try done; [by apply tokens_avanzar_n in Hr | eauto].
    + split_and!; done.
  - by apply Corrida_fuel in Hrun.
Qed.

(** X6. A successful scan accounts for every character of the text: the
    text is the concatenation, in order, of non-empty runs of whitespace
    and of the non-empty literals of the returned tokens, nothing
    skipped and nothing read twice.  When the scan raises the lexical
    error, the same holds of the text before the reported character,
    with the tokens recognised so far, and the reported character is
    neither whitespace, nor a digit, nor a letter or underscore. *)
Theorem X6_particion_del_texto :
  (∀ t toks s',
     analizar (init t) = (Ret toks, s') →
     ∃ trs, aplanar trs = t ∧ tokens_de trs = toks ∧ Forall trozo_valido trs) ∧
  (∀ t c l k s',
     analizar (init t) = (Raise (CaracterNoValido c l k), s') →
     ∃ trs r, t = aplanar trs ++ c :: r ∧ tokens_de trs = tokens s' ∧
              Forall trozo_valido trs ∧ isspace c = false ∧ isdigit c = false ∧
              isalpha c || bool_decide (c = guion_bajo) = false).
Proof.
  split.
  - intros t toks s' E.
    apply analizar_final in E as (s1 & _ & (trs & Hap & Htok & Hval) & Ht & _ & -> & -> & Hfin).
    exists trs. split_and!; try done.
    rewrite Hap, Ht. apply take_ge. rewrite <- Ht. by apply lookup_ge_None.
  - intros t c l k s' E.
    apply analizar_final in E
      as (s1 & _ & (trs & Hap & Htok & Hval) & Ht & _ & -> & Hc & ? & ? & ?).
    rewrite caracter_actual_resto in Hc.
    destruct (resto s1) as [|c' r] eqn:Hr; simplify_eq/=.
    exists trs, r. split_and!; try done.
    rewrite Hap, <- Hr. unfold resto. by rewrite take_drop.
Qed.

End Particion.

(** The scan of "a 1" cuts it into three pieces. *)
Lemma X6_particion_del_texto_witness :
  ∃ trs, aplanar trs = py "a 1" ∧
         tokens_de trs = [mkToken ID (VStr (py "a")) 1 1; mkToken ENTERO (VInt 1) 1 3] ∧
         Forall trozo_valido trs.
Proof.
  apply (proj1 (X6_particion_del_texto (H := latin1)) (py "a 1") _
           (analizar (init (py "a 1"))).2).
  vm_compute. reflexivity.
Defined.

(** ** The pieces, their ends and their positions *)

Section Traza.
Context `{Host}.

Lemma en_offsets_snoc P i trs tr :
  en_offsets P i (trs ++ [tr]) ↔
  en_offsets P i trs ∧
  match tr with Lexema tok _ => P (i + length (aplanar trs)) tok | Blanco _ => True end.
Proof.
  revert i. induction trs as [|tr' trs IH]; intros i; simpl.
  - unfold aplanar. simpl. rewrite Nat.add_0_r. tauto.
  - rewrite IH. unfold aplanar. simpl. rewrite length_app, Nat.add_assoc. tauto.
Qed.

Lemma en_offsets_impl (P Q : nat → Token → Prop) i trs :
  (∀ j tok, P j tok → Q j tok) → en_offsets P i trs → en_offsets Q i trs.
Proof.
  intros HPQ. revert i. induction trs as [|[ws|tok lit] trs IH]; intros i; simpl;
    [done| |]; intros [? ?]; split; auto.
Qed.

Lemma cortes_snoc T trs tr fin :
  cortes T (trs ++ [tr]) fin ↔ cortes T trs (texto_de_trozo tr ++ fin) ∧ T tr fin.
Proof.
  induction trs as [|tr' trs IH]; simpl.
  - unfold aplanar. simpl. tauto.
  - rewrite IH, aplanar_snoc, <- app_assoc. tauto.
Qed.

Lemma traza_init t : traza (init t).
Proof. exists []. simpl. by rewrite take_0. Qed.

(** A completed iteration reads one piece. *)
Lemma despachar_trozo s c s' :
  caracter_actual s = Some c → despachar c s = (Ret tt, s') →
  ∃ tr r, resto s = texto_de_trozo tr ++ r ∧ trozo_valido tr ∧ tope tr r ∧
          match tr with
          | Blanco ws => s' = avanzar_n (length ws) s
          | Lexema tok lit =>
              s' = con_token tok (avanzar_n (length lit) s) ∧
              tok_linea tok = linea s ∧ tok_columna tok = columna s
          end.
Proof.
  rewrite caracter_actual_resto. intros Hc.
  assert (∃ r0, resto s = c :: r0) as [r0 Er].
  { destruct (resto s) as [|c' r0]; simplify_eq/=. eauto. }
  clear Hc. unfold despachar.
  destruct (isspace c) eqn:Esp.
  { rewrite saltar_espacios_eq. intros [= <-].
    exists (Blanco (prefijo isspace (resto s))),
           (drop (length (prefijo isspace (resto s))) (resto s)). simpl.
    split_and!; [apply prefijo_split | | apply prefijo_Forall | apply prefijo_stop | done].
    rewrite Er. by apply prefijo_cons_ne. }
  destruct (isdigit c) eqn:Edig.
  { unfold bind. rewrite leer_numero_eq. simpl.
    set (ds := prefijo isdigit (resto s)).
    assert (Hds : ds ≠ []) by (unfold ds; rewrite Er; by apply prefijo_cons_ne).
    assert (Hsplit : resto s = ds ++ drop (length ds) (resto s))
      by apply prefijo_split.
    assert (Hhead : head ds = Some c).
    { unfold ds. rewrite Er. simpl. by rewrite Edig. }
    pose proof (prefijo_stop isdigit (resto s)) as Hstop. fold ds in Hstop.
    destruct (es punto (head _) && cumple isdigit _) eqn:E.
    - apply andb_true_iff in E as [E1 E2].
      apply bool_decide_eq_true in E1.
      destruct (drop (length ds) (resto s)) as [|c1 r1] eqn:Er1; simplify_eq/=.
      rewrite drop_0.
      set (fs := prefijo isdigit r1).
      assert (Hfs : fs ≠ []).
      { destruct r1 as [|d r1]; [done|]. by apply prefijo_cons_ne. }
      assert (Hreal : forma_real (ds ++ punto :: fs)).
      { exists ds, fs. split_and!; try done; apply prefijo_Forall. }
      replace (length ds + 1 + length fs) with (length (ds ++ punto :: fs))
        by (rewrite length_app; simpl; lia).
      assert (Hlit : resto s = (ds ++ punto :: fs) ++ drop (length fs) r1).
      { etrans; [exact Hsplit|]. rewrite <- app_assoc. simpl.
        do 2 f_equal. apply prefijo_split. }
      unfold emitir. destruct (float_ _) as [x|] eqn:Ef; simpl; [|done].
      intros [= <-].
      exists (Lexema (mkToken REAL (VFloat x) (linea s) (columna s)) (ds ++ punto :: fs)),
             (drop (length fs) r1). simpl.
      split_and!; [done | | apply prefijo_stop | done..].
      exists c. split_and!; [by destruct ds | done |]. simpl.
      split_and!; [|done..]. unfold lexema_de. simpl. eauto.
    - unfold emitir. destruct (int_ ds) as [z|] eqn:Ei; simpl; [|done].
      intros [= <-].
      exists (Lexema (mkToken ENTERO (VInt z) (linea s) (columna s)) ds),
             (drop (length ds) (resto s)). simpl.
      split_and!; [done | | done..].
      exists c. split_and!; [done..|]. simpl.
      split_and!; [|done|apply prefijo_Forall]. unfold lexema_de. simpl. eauto. }
  destruct (isalpha c || bool_decide (c = guion_bajo)) eqn:Eal; [|done].
  unfold bind. rewrite leer_identificador_eq. simpl. intros [= <-].
  set (lex := prefijo (λ c, isalnum c || bool_decide (c = guion_bajo)) (resto s)).
  assert (Hc0 : isalnum c || bool_decide (c = guion_bajo) = true).
  { unfold isalnum. apply orb_true_iff in Eal as [->| ->]; [done|].
    by rewrite orb_true_r. }
  exists (Lexema (mkToken ID (VStr lex) (linea s) (columna s)) lex),
         (drop (length lex) (resto s)). simpl.
  split_and!; [apply prefijo_split | | apply (prefijo_stop alfanumerico) | done..].
  exists c. split_and!; [|done|]; simpl.
  - unfold lex. rewrite Er. simpl. by rewrite Hc0.
  - split_and!; [done..|]. apply (prefijo_Forall alfanumerico).
Qed.

Lemma iteracion_traza s s' : iteracion s s' → coherente s → traza s → traza s'.
Proof.
  intros (c & Hc & Hd) Hcoh (trs & Hap & Htok & Hval & Hcor & Hoff).
  destruct (despachar_trozo _ _ _ Hc Hd) as (tr & r & Hr & Htr & Htope & Hs').
  assert (Hlt : pos s < length (texto s)).
  { apply lookup_lt_is_Some. unfold caracter_actual in Hc. eauto. }
  assert (pos s' = pos s + length (texto_de_trozo tr) ∧
          texto s' = texto s ∧ resto s' = r) as (Hpos & Htxt & Hres).
  { destruct tr as [ws|tok lit]; [|destruct Hs' as (Hs' & _)]; subst s'; simpl in *.
    - by rewrite (pos_avanzar_n _ _ _ Hr), (texto_avanzar_n _ _ _ Hr),
        (resto_avanzar_n _ _ _ Hr).
    - rewrite (pos_avanzar_n _ _ _ Hr), (texto_avanzar_n _ _ _ Hr).
      split_and!; [done..|].
      change (resto (con_token tok (avanzar_n (length lit) s)))
        with (resto (avanzar_n (length lit) s)). by apply resto_avanzar_n. }
  exists (trs ++ [tr]). rewrite Hpos, Htxt, Hres, aplanar_snoc, Hap.
  split_and!.
  - by rewrite (take_resto _ _ _ Hr).
  - destruct tr as [ws|tok lit]; [|destruct Hs' as (Hs' & _)]; subst s'; simpl in *.
    + by rewrite tokens_de_blanco, (tokens_avanzar_n _ _ _ Hr).
    + by rewrite tokens_de_lexema, (tokens_avanzar_n _ _ _ Hr), Htok.
  - apply Forall_app. split; [done|]. by constructor.
  - apply cortes_snoc. split; [by rewrite <- Hr | done].
  - apply en_offsets_snoc. split; [done|].
    destruct tr as [ws|tok lit]; [done|]. destruct Hs' as (_ & Hl & Hk).
    rewrite Hap, length_take, Nat.min_l by lia. simpl.
    unfold coherente in Hcoh. rewrite lincol_eq in Hcoh.
    unfold posicion_en. rewrite Hl, Hk. by simplify_eq.
Qed.

Lemma alcanza_traza s s1 : alcanza s s1 → invariante s → traza s → traza s1.
Proof.
  induction 1 as [s|s s2 s1 Hit _ IH]; intros Hinv Htr; [done|].
  apply IH.
  - destruct Hit as (c & Hc & Hd). apply despachar_inv in Hd; [|done].
    by eapply Paso_invariante.
  - eapply iteracion_traza; [done| |done]. by destruct Hinv.
Qed.

(** The pieces a scan has read, however it ends: the text is the pieces
    followed by what was not scanned, which is nothing when the scan
    returns. *)
Lemma analizar_traza t r s' :
  analizar (init t) = (r, s') →
  ∃ trs fin, t = aplanar trs ++ fin ∧ tokens_de trs = tokens s' ∧
             Forall trozo_valido trs ∧ cortes tope trs fin ∧
             en_offsets (posicion_en t) 0 trs ∧
             ∀ toks, r = Ret toks →
               fin = [] ∧ toks = tokens s' ∧ caracter_actual s' = None.
Proof.
  intros E. apply analizar_final in E as (s1 & Hreach & _ & Ht & Htoks & Hr).
  pose proof (alcanza_traza _ _ Hreach
    (invariante_reiniciar (init t) (coherente_init t)) (traza_init t))
    as (trs & Hap & Htok & Hval & Hcor & Hoff).
  exists trs, (resto s1). rewrite Ht in *.
  split_and!; try done.
  - rewrite Hap. unfold resto. by rewrite Ht, take_drop.
  - congruence.
  - intros toks ->. destruct Hr as (-> & -> & Hfin). split_and!; try done.
    rewrite caracter_actual_resto in Hfin. by destruct (resto s1).
Qed.

End Traza.

(** ** The pieces of ASCII texts *)

Section TrazaAscii.
Context `{Host}.

Lemma alfanumerico_ascii c :
  es_ascii c = true → alfanumerico c = resto_identificador c.
Proof.
  intros Hc. unfold alfanumerico, isalnum, resto_identificador.
  rewrite host_ascii_isalpha, host_ascii_isdigit, host_ascii_isnumeric,
    host_ascii_decimal by done.
  unfold ascii_decimal. destruct (ascii_isalpha c), (ascii_isdigit c); done.
Qed.

Lemma digitos_de_host (ds : list N) :
  ds ≠ [] → Forall (λ c, es_ascii c = true) ds →
  Forall (λ c, isdigit c = true) ds → digitos ds.
Proof.
  intros Hne Ha Hd. split; [done|].
  pose proof (Forall_ascii_forallb _ Ha Hd) as Hb. rewrite forallb_forall in Hb.
  apply Forall_forall. intros c Hc. apply Hb. by apply list_elem_of_In.
Qed.

(** On ASCII characters the shapes of the host are the ASCII patterns,
    and the conversions give the values of the literals. *)
Lemma trozo_a_ascii tr :
  Forall (λ c, es_ascii c = true) (texto_de_trozo tr) →
  trozo_valido tr → trozo_ascii tr.
Proof.
  destruct tr as [ws|tok lit]; simpl.
  { intros Ha [Hne Hws]. split; [done|].
    unfold blancos in Hws.
    rewrite Forall_forall in Ha, Hws. apply Forall_forall. intros c Hc.
    rewrite <- host_ascii_isspace by auto. auto. }
  intros Hasc (c & Hhead & Hsp & Hshape).
  assert (Hne : lit ≠ []) by (by destruct lit).
  unfold lexema_de in Hshape. destruct (tipo tok).
  - destruct Hshape as ((x & Hx & Hval) & _ & ds & fs & -> & Hds & Hfs & Hd1 & Hd2).
    apply Forall_app in Hasc as Ha. destruct Ha as [Ha1 Ha2].
    apply Forall_cons in Ha2 as [_ Ha2].
    pose proof (digitos_de_host _ Hds Ha1 Hd1) as Hdig1.
    pose proof (digitos_de_host _ Hfs Ha2 Hd2) as Hdig2.
    exists ds, fs. split_and!; try done.
    rewrite (float_ascii _ (forallb_real _ _ Hdig1 Hdig2)) in Hx. by simplify_eq.
  - destruct Hshape as ((z & Hz & Hval) & _ & Hent).
    split; [by apply digitos_de_host|].
    apply int_Some in Hz as (ds & Hds & -> & _).
    rewrite (mapM_decimal_ascii lit) in Hds by (by apply Forall_ascii_forallb).
    unfold valor_de_digitos. by simplify_eq.
  - destruct Hshape as (Hval & Hal & Hdig & Halnum). split; [done|].
    destruct lit as [|c' lit]; simplify_eq/=.
    apply Forall_cons in Hasc as [Hc Hlit].
    unfold inicio_identificador. rewrite <- host_ascii_isalpha by done.
    rewrite Hal. simpl.
    apply Forall_cons in Halnum as [_ Halnum].
    apply forallb_forall. intros x Hx%list_elem_of_In.
    rewrite Forall_forall in Hlit, Halnum.
    rewrite <- alfanumerico_ascii by auto. auto.
Qed.

Lemma trozos_a_ascii trs :
  Forall (λ c, es_ascii c = true) (aplanar trs) → Forall trozo_valido trs →
  Forall trozo_ascii trs.
Proof.
  intros Hasc Hval. induction Hval as [|tr trs Htr _ IH]; [done|].
  unfold aplanar in Hasc. simpl in Hasc. apply Forall_app in Hasc as [Hlit Hrest].
  constructor; [by apply trozo_a_ascii | by apply IH].
Qed.

Lemma tope_a_ascii tr r :
  Forall (λ c, es_ascii c = true) r → tope tr r → tope_ascii tr r.
Proof.
  intros Hr.
  assert (H0 : ∀ p q : char → bool, (∀ c, es_ascii c = true → p c = q c) →
                 ∀ i, cumple p (r !! i) = cumple q (r !! i)).
  { intros p q Hpq i. destruct (r !! i) as [c|] eqn:Ec; simpl; [|done].
    apply Hpq. by eapply Forall_lookup_1 in Hr. }
  destruct tr as [ws|tok lit]; simpl; [|destruct (tipo tok)];
    rewrite !head_lookup.
  - by rewrite (H0 isspace ascii_isspace host_ascii_isspace).
  - by rewrite (H0 isdigit ascii_isdigit host_ascii_isdigit).
  - by rewrite !(H0 isdigit ascii_isdigit host_ascii_isdigit).
  - by rewrite (H0 alfanumerico resto_identificador alfanumerico_ascii).
Qed.

Lemma cortes_a_ascii trs fin :
  Forall (λ c, es_ascii c = true) (aplanar trs ++ fin) →
  cortes tope trs fin → cortes tope_ascii trs fin.
Proof.
  induction trs as [|tr trs IH]; simpl; [done|].
  unfold aplanar at 1. simpl. fold (aplanar trs). rewrite <- app_assoc.
  intros [_ Ha]%Forall_app [Htope Hcor].
  split; [by apply tope_a_ascii | by apply IH].
Qed.

(** X7. On a text of ASCII characters, however the scan ends, the tokens
    it has emitted are those of literals of the text, in order: the
    scanned part of the text is cut into runs of ASCII whitespace and
    the literals of the tokens, each as long as it can be; every
    identifier is its literal, which matches [A-Za-z_][A-Za-z0-9_]*;
    every integer was read from a literal [0-9]+ and has the value its
    digits denote; every real was read from a literal [0-9]+\.[0-9]+ and
    has the value [float] gives it. *)
Theorem X7_tokens_ascii t :
  Forall (λ c, es_ascii c = true) t →
  ∃ trs fin, t = aplanar trs ++ fin ∧
             tokens_de trs = tokens (analizar (init t)).2 ∧
             Forall trozo_ascii trs ∧ cortes tope_ascii trs fin.
Proof.
  intros Hasc. destruct (analizar (init t)) as [r s'] eqn:E. simpl.
  apply analizar_traza in E as (trs & fin & Ht & Htok & Hval & Hcor & _).
  exists trs, fin. rewrite Ht in Hasc. split_and!; try done.
  - apply trozos_a_ascii; [|done]. by apply Forall_app in Hasc as [? _].
  - by apply cortes_a_ascii.
Qed.

End TrazaAscii.

(** The tokens of "x_1 2.5 07" and their literals. *)
Lemma X7_tokens_ascii_witness :
  ∃ trs fin, py "x_1 2.5 07" = aplanar trs ++ fin ∧
             tokens_de trs = [mkToken ID (VStr (py "x_1")) 1 1;
                              mkToken REAL (VFloat (py "2.5")) 1 5;
                              mkToken ENTERO (VInt 7) 1 9] ∧
             Forall trozo_ascii trs ∧ cortes tope_ascii trs fin.
Proof.
  apply (X7_tokens_ascii (H := latin1) (py "x_1 2.5 07")).
  by repeat constructor.
Defined.

(** ** Every token at the line and column of its first character *)

Section PosicionDeTokens.
Context `{Host}.

(** C4. The line counter starts at 1 and the column counter at 1;
    consuming a newline adds one to the line and resets the column to 1,
    consuming any other character adds one to the column; and every token
    the scan emits, whether it ends normally or not, carries the 1-based
    line and column of its own first character: the scanned part of the
    text (all of it when the scan returns) is cut into runs of whitespace
    and the literals of the emitted tokens, in order, and each token has
    the line and column of the offset at which its literal starts, the
    lengths of the pieces before it added up.  On the text "ab", newline,
    "cd" the scan returns the identifier ab at line 1, column 1 and the
    identifier cd at line 2, column 1. *)
Theorem C4_linea_columna :
  (∀ t, linea (init t) = 1 ∧ columna (init t) = 1) ∧
  (∀ s c, caracter_actual s = Some c →
     pos (avanzar s) = pos s + 1 ∧
     (c = salto_de_linea →
        linea (avanzar s) = linea s + 1 ∧ columna (avanzar s) = 1) ∧
     (c ≠ salto_de_linea →
        linea (avanzar s) = linea s ∧ columna (avanzar s) = columna s + 1)) ∧
  (∀ t, ∃ trs fin,
     t = aplanar trs ++ fin ∧ tokens_de trs = tokens (analizar (init t)).2 ∧
     Forall trozo_valido trs ∧ en_offsets (posicion_en t) 0 trs ∧
     ∀ toks, (analizar (init t)).1 = Ret toks → fin = [] ∧ toks = tokens_de trs) ∧
  (∃ s', analizar (init (py "ab" ++ [salto_de_linea] ++ py "cd")) =
     (Ret [mkToken ID (VStr (py "ab")) 1 1; mkToken ID (VStr (py "cd")) 2 1], s')).
Proof.
  split_and!.
  - done.
  - intros s c Hc. unfold avanzar. unfold caracter_actual in Hc. rewrite Hc.
    case_bool_decide; simpl; split_and!; done.
  - intros t. destruct (analizar (init t)) as [r s'] eqn:E. simpl.
    apply analizar_traza in E as (trs & fin & Ht & Htok & Hval & _ & Hoff & Hret).
    exists trs, fin. split_and!; try done.
    intros toks ->. destruct (Hret toks eq_refl) as (? & ? & _). split; congruence.
  - replace (py "ab" ++ [salto_de_linea] ++ py "cd")
      with [97; 98; 10; 99; 100]%N by reflexivity.
    eexists. eapply analizar_ret; [corrida | reflexivity].
Qed.

End PosicionDeTokens.

(** ** The lexical error, and the complete token sequence otherwise *)

Section SecuenciaCompleta.
Context `{Host}.


End SecuenciaCompleta.


(** ** Texts of one line *)

Section UnaLinea.
Context `{Host}.

Lemma sin_saltos (l : list N) :
  salto_de_linea ∉ l →
  filter (λ c, c = salto_de_linea) l = [] ∧
  prefijo (λ c, negb (bool_decide (c = salto_de_linea))) (reverse l) = reverse l.
Proof.
  intros Hl. split.
  - induction l as [|c l IH]; [done|].
    apply not_elem_of_cons in Hl as [Hc Hl].
    rewrite filter_cons_False by done. by apply IH.
  - assert (Hr : salto_de_linea ∉ reverse l) by (by rewrite elem_of_reverse).
    induction (reverse l) as [|c r IH]; [done|].
    apply not_elem_of_cons in Hr as [Hc Hr]. simpl.
    rewrite bool_decide_eq_false_2 by done. simpl. by rewrite IH.
Qed.

(** X14. On a text without a newline every token is on line 1, and its
    column is one more than the offset of its own first character: the
    scanned part of the text is cut into runs of whitespace and the
    literals of the emitted tokens, in order, and the column of each token
    is one more than the lengths of the pieces before its literal, added
    up.  Each character, a tab or a carriage return included, counts for
    one column. *)
Theorem X14_columnas_en_una_linea t :
  salto_de_linea ∉ t →
  ∃ trs fin, t = aplanar trs ++ fin ∧
             tokens_de trs = tokens (analizar (init t)).2 ∧
             Forall trozo_valido trs ∧
             en_offsets (λ i tok, tok_linea tok = 1 ∧ tok_columna tok = i + 1) 0 trs.
Proof.
  intros Hnl. destruct (analizar (init t)) as [r s'] eqn:E. simpl.
  apply analizar_traza in E as (trs & fin & Ht & Htok & Hval & _ & Hoff & _).
  exists trs, fin. split_and!; try done.
  eapply en_offsets_impl; [|exact Hoff].
  intros i tok (Hlt & Hl & Hc).
  assert (Hpref : salto_de_linea ∉ take i t).
  { intros (j & Hj & _)%elem_of_take. apply Hnl.
    by eapply list_elem_of_lookup_2. }
  destruct (sin_saltos _ Hpref) as [Hf Hp].
  unfold linea_de in Hl. unfold columna_de in Hc. rewrite Hf in Hl.
  rewrite Hp, length_reverse, length_take in Hc. simpl in Hl. lia.
Qed.

End UnaLinea.

(** The tokens of "a", tab, "bc 7" are at columns 1, 3 and 6 of line 1. *)
Lemma X14_columnas_en_una_linea_witness :
  ∃ trs fin, py "a" ++ [9%N] ++ py "bc 7" = aplanar trs ++ fin ∧
             tokens_de trs = [mkToken ID (VStr (py "a")) 1 1;
                              mkToken ID (VStr (py "bc")) 1 3;
                              mkToken ENTERO (VInt 7) 1 6] ∧
             Forall trozo_valido trs ∧
             en_offsets (λ i tok, tok_linea tok = 1 ∧ tok_columna tok = i + 1) 0 trs.
Proof.
  apply (X14_columnas_en_una_linea (H := latin1) (py "a" ++ [9%N] ++ py "bc 7")).
  vm_compute. intros Hin. repeat (apply elem_of_cons in Hin as [Hin|Hin]; [done|]).
  by apply elem_of_nil in Hin.
Defined.

(** * Errors, retries and adjacent literals *)

(** ** Calling [analizar] again after an error *)

Section Reintento.
Context `{Host}.

(** X9. [analizar] has no recovery.  After the lexical error the cursor
    still stands at the offending character: a second call on the same
    instance raises the same error, with the same character, line and
    column, and the tokens recognised by the first call are gone.  After
    the [ValueError] of a conversion the cursor stands after the refused
    literal, which has been consumed without a token: a second call
    would go on from there. *)
Theorem X9_sin_recuperacion :
  (∀ s c l k s',
     analizar s = (Raise (CaracterNoValido c l k), s') →
     analizar s' = (Raise (CaracterNoValido c l k), reiniciar s')) ∧
  (∀ s lit s',
     analizar s = (Raise (ValueError lit), s') →
     ∃ s1 r, alcanza (reiniciar s) s1 ∧ resto s1 = lit ++ r ∧ lit ≠ [] ∧
             resto s' = r ∧ pos s' = pos s1 + length lit ∧
             tokens s' = tokens s1).
Proof.
  split.
  - intros s c l k s' (o & Hrun & Hr)%analizar_inv.
    destruct o as [[]|e|]; simplify_eq/=.
    apply Corrida_lanza_inv in Hrun as (s1 & c1 & _ & Hc & Hd).
    apply despachar_inv in Hd; [|done]. inv Hd.
    apply analizar_lanza. eapply corrida_lanza; [exact Hc|].
    by apply (despachar_error (reiniciar s')).
  - intros s lit s' (o & Hrun & Hr)%analizar_inv.
    destruct o as [[]|e|]; simplify_eq/=.
    apply Corrida_lanza_inv in Hrun as (s1 & c1 & Hreach & Hc & Hd).
    apply despachar_inv in Hd; [|done].
    inversion Hd as [| |lit' r ? ? Hres Hne _| |]; subst.
    exists s1, r. split_and!; try done.
    + by apply resto_avanzar_n in Hres.
    + by apply pos_avanzar_n in Hres.
    + by apply tokens_avanzar_n in Hres.
Qed.

End Reintento.

(** On "a ? b" the second call fails at the question mark again. *)
Lemma X9_sin_recuperacion_witness :
  let s' := (analizar (init (py "a ? b"))).2 in
  analizar s' = (Raise (CaracterNoValido 63 1 3), reiniciar s').
Proof.
  intros s'.
  apply (proj1 (X9_sin_recuperacion (H := latin1)) (init (py "a ? b")) 63%N 1 3 s').
  vm_compute. reflexivity.
Defined.

(** ** Sign and size of the integers *)

Section Signo.
Context `{Host}.

Lemma valor_posicional_cota ds :
  Forall (λ d, d < 10) ds →
  (0 ≤ valor_posicional ds < 10 ^ Z.of_nat (length ds))%Z.
Proof.
  induction 1 as [|d ds Hd _ IH]; simpl valor_posicional; simpl length.
  - simpl. lia.
  - rewrite Nat2Z.inj_succ, Z.pow_succ_r by lia.
    assert (0 < 10 ^ Z.of_nat (length ds))%Z by (apply Z.pow_pos_nonneg; lia).
    nia.
Qed.

(** X10. The scanner has no signed literal: an integer token emitted by
    [leer_numero] is never negative, and it is smaller than ten to the
    number of characters consumed for it. *)
Theorem X10_entero_sin_signo s tok s' :
  leer_numero s = (Ret tok, s') → tipo tok = ENTERO →
  ∃ z, valor tok = VInt z ∧ (0 ≤ z < 10 ^ Z.of_nat (pos s' - pos s))%Z.
Proof.
  rewrite leer_numero_eq. simpl.
  set (ds := prefijo isdigit (resto s)).
  pose proof (prefijo_split isdigit (resto s)) as Hsplit. fold ds in Hsplit.
  destruct (es punto _ && cumple isdigit _).
  - unfold emitir. destruct (float_ _); intros; simplify_eq/=.
  - unfold emitir. destruct (int_ ds) as [z|] eqn:Ez; intros E Ht; simplify_eq/=.
    exists z. split; [done|].
    apply int_Some in Ez as (ns & Hns & -> & _).
    apply mapM_decimal_isdigit in Hns as (_ & Hlt & Hlen).
    rewrite (pos_avanzar_n _ _ _ Hsplit).
    replace (pos s + length ds - pos s) with (length ns) by lia.
    by apply valor_posicional_cota.
Qed.

End Signo.

(** The integer read from "0042x" lies between 0 and 10^4. *)
Lemma X10_entero_sin_signo_witness :
  ∃ z, VInt 42 = VInt z ∧ (0 ≤ z < 10 ^ Z.of_nat (4 - 0))%Z.
Proof.
  apply (X10_entero_sin_signo (H := latin1) (init (py "0042x"))
           (mkToken ENTERO (VInt 42) 1 1) (leer_numero (init (py "0042x"))).2);
    vm_compute; reflexivity.
Defined.

(** ** A number and an identifier written together *)

Section Pegados.
Context `{Host}.

Lemma inicio_identificador_host c :
  inicio_identificador c = true →
  es_ascii c = true ∧ isspace c = false ∧ isdigit c = false ∧
  isalpha c || bool_decide (c = guion_bajo) = true ∧ c ≠ punto ∧
  resto_identificador c = true.
Proof.
  unfold inicio_identificador, resto_identificador. intros Hc.
  assert (Ha : es_ascii c = true).
  { apply orb_true_iff in Hc as [Hc|Hc%bool_decide_eq_true]; [casos_N | by subst]. }
  rewrite host_ascii_isspace, host_ascii_isdigit, host_ascii_isalpha by done.
  apply orb_true_iff in Hc as [Hc|Hc%bool_decide_eq_true].
  - rewrite Hc. split_and!; try done; casos_N.
  - subst. split_and!; done.
Qed.

Lemma resto_identificador_host c :
  resto_identificador c = true →
  es_ascii c = true ∧ alfanumerico c = true ∧ c ≠ salto_de_linea.
Proof.
  intros Hc. assert (Ha : es_ascii c = true).
  { unfold resto_identificador in Hc.
    apply orb_true_iff in Hc as [Hc|Hc%bool_decide_eq_true]; [|by subst].
    apply orb_true_iff in Hc as [Hc|Hc]; casos_N. }
  split_and!; [done | by rewrite alfanumerico_ascii |].
  intros ->. done.
Qed.

Lemma fold_avance_sin_salto (run : list N) l k :
  salto_de_linea ∉ run → fold_left avance run (l, k) = (l, k + length run).
Proof.
  revert k. induction run as [|c run IH]; intros k Hnl; simpl.
  - f_equal. lia.
  - apply not_elem_of_cons in Hnl as [Hc Hnl]. unfold avance at 2.
    rewrite bool_decide_eq_false_2 by done. simpl. rewrite IH by done.
    f_equal. lia.
Qed.

Lemma identificador_partes lex :
  es_identificador lex = true →
  ∃ c r, lex = c :: r ∧ inicio_identificador c = true ∧
         Forall (λ c, alfanumerico c = true) lex ∧ salto_de_linea ∉ lex.
Proof.
  destruct lex as [|c r]; [done|]. simpl. intros [Hc Hr]%andb_true_iff.
  exists c, r.
  assert (Hc' : resto_identificador c = true)
    by (by apply inicio_identificador_host in Hc as (_ & _ & _ & _ & _ & ?)).
  assert (Hall : ∀ x, x ∈ c :: r → resto_identificador x = true).
  { intros x [->|Hx%list_elem_of_In]%elem_of_cons; [done|].
    rewrite forallb_forall in Hr. auto. }
  split_and!; [done..| |].
  - apply Forall_forall. intros x Hx%Hall.
    by apply resto_identificador_host in Hx as (_ & ? & _).
  - intros Hx%Hall. by apply resto_identificador_host in Hx as (_ & _ & ?).
Qed.

Lemma digitos_partes ds :
  digitos ds →
  Forall (λ c, isdigit c = true) ds ∧ Forall (λ c, alfanumerico c = true) ds ∧
  (salto_de_linea ∉ ds) ∧ forallb ascii_isdigit ds = true.
Proof.
  intros [Hne Hds]. rewrite Forall_forall in Hds. split_and!.
  - apply Forall_forall. intros c Hc%Hds. by apply ascii_isdigit_host in Hc as (_ & ? & _).
  - apply Forall_forall. intros c Hc%Hds. apply resto_identificador_host.
    unfold resto_identificador. by rewrite Hc, orb_true_r.
  - intros Hc%Hds. done.
  - apply forallb_forall. intros c Hc%list_elem_of_In. auto.
Qed.

(** X11. With ASCII digits [ds] and an ASCII identifier [lex]: written
    as digits then identifier, with nothing in between, the text is
    scanned without error as two tokens, the integer at column 1 and the
    identifier right after it; written as identifier then digits it is
    scanned as one identifier, which absorbs the digits. *)
Theorem X11_numero_e_identificador_pegados ds lex :
  digitos ds → es_identificador lex = true →
  int_max_str_digits = 0 ∨ length ds ≤ int_max_str_digits →
  (analizar (init (ds ++ lex))).1 =
    Ret [mkToken ENTERO
           (VInt (valor_posicional ((λ c, N.to_nat (c - 48)) <$> ds))) 1 1;
         mkToken ID (VStr lex) 1 (1 + length ds)] ∧
  (analizar (init (lex ++ ds))).1 = Ret [mkToken ID (VStr (lex ++ ds)) 1 1].
Proof.
  intros Hds Hlex Hlim.
  destruct (identificador_partes _ Hlex) as (c & r & Elex & Hc & Hal & Hnl).
  destruct (inicio_identificador_host _ Hc) as (_ & Hcs & Hcd & Hca & Hcp & _).
  destruct (digitos_partes _ Hds) as (Hdd & Hda & Hdnl & Hdb).
  destruct (digitos_host _ Hds) as (_ & _ & d & ds' & Eds & Hd).
  destruct (ascii_isdigit_host _ Hd) as (_ & Hdd0 & Hds0 & _).
  split.
  - set (s0 := init (ds ++ lex)).
    assert (Hr0 : resto s0 = ds ++ lex) by done.
    destruct (leer_numero_partes s0 ds lex Hr0 Hdd) as [_ Hint];
      [by rewrite Elex; simpl|].
    destruct Hint as [E _].
    { rewrite Elex. simpl. unfold es.
      rewrite bool_decide_eq_false_2; [done | by intros [=]]. }
    rewrite (int_Some_2 ds _ (mapM_decimal_ascii _ Hdb) (proj1 Hds) Hlim) in E.
    simpl in E.
    set (tok := mkToken ENTERO _ _ _) in E.
    set (s1 := con_token tok (avanzar_n (length ds) s0)).
    assert (Hd0 : despachar d s0 = (Ret tt, s1)).
    { unfold despachar, bind. by rewrite Hds0, Hdd0, E. }
    assert (Hr1 : resto s1 = lex) by (by apply (resto_avanzar_n s0)).
    assert (Hpos1 : linea s1 = 1 ∧ columna s1 = 1 + length ds).
    { unfold s1, con_token. rewrite (avanzar_n_app _ _ _ Hr0). simpl.
      by rewrite fold_avance_sin_salto. }
    destruct Hpos1 as [Hl1 Hk1].
    set (tok2 := mkToken ID (VStr lex) (linea s1) (columna s1)).
    set (s2 := con_token tok2 (avanzar_n (length lex) s1)).
    assert (Hr1' : resto s1 = lex ++ []) by (by rewrite app_nil_r).
    assert (Hd1 : despachar c s1 = (Ret tt, s2)).
    { unfold despachar, bind. rewrite Hcs, Hcd, Hca, leer_identificador_eq. simpl.
      rewrite Hr1'. by rewrite (prefijo_app _ lex []). }
    erewrite (analizar_ret s0 s2); [done| |].
    + change (reiniciar s0) with s0.
      eapply corrida_paso; [by rewrite caracter_actual_resto, Hr0, Eds | exact Hd0 |].
      eapply corrida_paso; [by rewrite caracter_actual_resto, Hr1, Elex | exact Hd1 |].
      constructor. rewrite caracter_actual_resto.
      change (resto s2) with (resto (avanzar_n (length lex) s1)).
      by rewrite (resto_avanzar_n s1 _ _ Hr1').
    + unfold s2, con_token. simpl. rewrite (tokens_avanzar_n s1 _ _ Hr1').
      unfold s1, con_token. simpl. rewrite (tokens_avanzar_n s0 _ _ Hr0). simpl.
      unfold tok2. by rewrite Hl1, Hk1.
  - set (s0 := init (lex ++ ds)).
    assert (Hr0 : resto s0 = (lex ++ ds) ++ []) by (by rewrite app_nil_r).
    set (tok := mkToken ID (VStr (lex ++ ds)) 1 1).
    set (s1 := con_token tok (avanzar_n (length (lex ++ ds)) s0)).
    assert (Hd0 : despachar c s0 = (Ret tt, s1)).
    { unfold despachar, bind. rewrite Hcs, Hcd, Hca, leer_identificador_eq. simpl.
      rewrite Hr0. rewrite (prefijo_app _ (lex ++ ds) []); [done| |done].
      apply Forall_app. done. }
    erewrite (analizar_ret s0 s1); [done| |].
    + change (reiniciar s0) with s0.
      eapply corrida_paso; [|exact Hd0|].
      * rewrite caracter_actual_resto, Hr0, Elex. done.
      * constructor. rewrite caracter_actual_resto.
        change (resto s1) with (resto (avanzar_n (length (lex ++ ds)) s0)).
        by rewrite (resto_avanzar_n s0 _ _ Hr0).
    + unfold s1, con_token. simpl. by rewrite (tokens_avanzar_n s0 _ _ Hr0).
Qed.

End Pegados.

(** "12ab" is an integer and an identifier; "ab12" is one identifier. *)
Lemma X11_numero_e_identificador_pegados_witness :
  (analizar (init (py "12" ++ py "ab"))).1 =
    Ret [mkToken ENTERO (VInt 12) 1 1; mkToken ID (VStr (py "ab")) 1 3] ∧
  (analizar (init (py "ab" ++ py "12"))).1 = Ret [mkToken ID (VStr (py "ab12")) 1 1].
Proof.
  apply (X11_numero_e_identificador_pegados (H := latin1) (py "12") (py "ab")).
  - split; [done | by repeat constructor].
  - reflexivity.
  - right. apply Nat.leb_le. vm_compute. reflexivity.
Defined.

(** ** When and where a scan fails *)

Section Fallos.
Context `{Host}.




(** X13. When the scan of a text raises the lexical error, the cursor is
    at the reported character, and the reported line and column are the
    1-based line and column of that offset of the text, whatever
    characters the text is made of. *)
Theorem X13_posicion_del_error t c l k s' :
  analizar (init t) = (Raise (CaracterNoValido c l k), s') →
  t !! pos s' = Some c ∧ l = linea_de t (pos s') ∧ k = columna_de t (pos s') ∧
  linea s' = l ∧ columna s' = k.
Proof.
  intros (o & Hrun & Hr)%analizar_inv.
  destruct o as [[]|e|]; simplify_eq/=.
  change (reiniciar (init t)) with (init t) in Hrun.
  apply Corrida_lanza_inv in Hrun as (s1 & c1 & Hreach & Hc & Hd).
  pose proof (alcanza_invariante _ _ Hreach
    (invariante_reiniciar (init t) (coherente_init t))) as [[Hcoh _] Ht].
  simpl in Ht. apply despachar_inv in Hd; [|done]. inv Hd.
  unfold coherente in Hcoh. rewrite lincol_eq in Hcoh.
  unfold caracter_actual in Hc. split_and!; congruence.
Qed.

End Fallos.


(** On "ab", newline, " $" the error is reported at line 2, column 2. *)
Lemma X13_posicion_del_error_witness :
  let t := py "ab" ++ [salto_de_linea] ++ py " $" in
  t !! 4 = Some 36%N ∧ 2 = linea_de t 4 ∧ 2 = columna_de t 4.
Proof.
  intros t.
  destruct (X13_posicion_del_error (H := latin1) t 36%N 2 2 (analizar (init t)).2)
    as (H1 & H2 & H3 & _); [vm_compute; reflexivity|].
  split_and!; [exact H1 | exact H2 | exact H3].
Defined.
